(** * a5er_parser: decoding A5:ER documents and reporting them as Markdown

    A shallow embedding of [a5er_parser.py].  Python's [str] is a sequence
    of Unicode code points, so a string is a list of code points ([N]);
    the regular expressions of the program are values of a small regex
    type, run by a backtracking matcher with the greedy semantics of
    Python's [re]; dictionaries are [gmap]s keyed by strings; the
    [StringIO] buffer of the renderer is threaded as explicit state. *)

From stdpp Require Import strings list gmap sorting.
From Stdlib Require Import NArith.

Local Open Scope N_scope.

(** ** Strings *)

Abbreviation char := N (only parsing).
Abbreviation str := (list N) (only parsing).

(** String literals are written as UTF-8 text and decoded into code
    points, so that a literal reads as it does in the source. *)
Fixpoint utf8_decode (bs : list N) : str :=
  match bs with
  | [] => []
  | b0 :: r0 =>
    if b0 <? 0x80 then b0 :: utf8_decode r0
    else if b0 <? 0xE0 then
      match r0 with
      | b1 :: r1 => ((b0 - 0xC0) * 0x40 + (b1 - 0x80)) :: utf8_decode r1
      | _ => []
      end
    else if b0 <? 0xF0 then
      match r0 with
      | b1 :: b2 :: r2 =>
        ((b0 - 0xE0) * 0x1000 + (b1 - 0x80) * 0x40 + (b2 - 0x80))
          :: utf8_decode r2
      | _ => []
      end
    else
      match r0 with
      | b1 :: b2 :: b3 :: r3 =>
        ((b0 - 0xF0) * 0x40000 + (b1 - 0x80) * 0x1000
         + (b2 - 0x80) * 0x40 + (b3 - 0x80)) :: utf8_decode r3
      | _ => []
      end
  end.

Definition u (s : string) : str :=
  utf8_decode (map Ascii.N_of_ascii (String.list_ascii_of_string s)).

(** Characters that cannot be written inside a literal. *)
Definition DQUOTE : char := 0x22.
Definition NL : char := 0x0A.
Definition BOM : char := 0xFEFF.

(** The part of the Unicode character database that lies outside ASCII is
    data of the Python interpreter, not of the program: the decimal digits
    matched by [\d] and the full upper-case mapping used by [str.upper]. *)
Class UnicodeData := {
  decimal_ext : char -> bool;
  upper_ext : char -> str
}.

(** Within ASCII only the digits 0-9 are decimal and only a-z change. *)
Definition ascii_only : UnicodeData :=
  {| decimal_ext := fun _ => false; upper_ext := fun c => [c] |}.

(** [str.isspace] on one character, which is also the class [\s] of a
    Unicode pattern and the set removed by [str.strip()]. *)
Definition isspace (c : char) : bool :=
  ((0x09 <=? c) && (c <=? 0x0D)) || ((0x1C <=? c) && (c <=? 0x20))
  || (c =? 0x85) || (c =? 0xA0) || (c =? 0x1680)
  || ((0x2000 <=? c) && (c <=? 0x200A))
  || (c =? 0x2028) || (c =? 0x2029) || (c =? 0x202F) || (c =? 0x205F)
  || (c =? 0x3000).

Definition isdecimal `{UnicodeData} (c : char) : bool :=
  if c <? 0x80 then (0x30 <=? c) && (c <=? 0x39) else decimal_ext c.

Definition ascii_upper (c : char) : char :=
  if (0x61 <=? c) && (c <=? 0x7A) then c - 0x20 else c.

Definition toupper_full `{UnicodeData} (c : char) : str :=
  if c <? 0x80 then [ascii_upper c] else upper_ext c.

(** [s.upper()] *)
Definition upper `{UnicodeData} (s : str) : str := flat_map toupper_full s.

Fixpoint drop_while (p : char -> bool) (s : str) : str :=
  match s with
  | c :: s' => if p c then drop_while p s' else s
  | [] => []
  end.

Fixpoint take_while (p : char -> bool) (s : str) : str :=
  match s with
  | c :: s' => if p c then c :: take_while p s' else []
  | [] => []
  end.

Definition lstrip (s : str) : str := drop_while isspace s.
Definition rstrip (s : str) : str := reverse (drop_while isspace (reverse s)).

(** [s.strip()] *)
Definition strip (s : str) : str := rstrip (lstrip s).

(** [s.startswith(p)] *)
Fixpoint startswith (s p : str) {struct p} : bool :=
  match p, s with
  | [], _ => true
  | c :: p', d :: s' => (c =? d) && startswith s' p'
  | _ :: _, [] => false
  end.

(** [s.split(sep)] for a one-character separator: never an empty list. *)
Fixpoint split (sep : char) (s : str) : list str :=
  match s with
  | [] => [[]]
  | c :: s' =>
    if c =? sep then [] :: split sep s'
    else match split sep s' with
         | h :: t => (c :: h) :: t
         | [] => [[c]]
         end
  end.

(** [sep.join(parts)] *)
Fixpoint join (sep : str) (parts : list str) : str :=
  match parts with
  | [] => []
  | [p] => p
  | p :: rest => p ++ sep ++ join sep rest
  end.

(** [needle in s] *)
Fixpoint contains (s needle : str) : bool :=
  startswith s needle
  || match s with
     | [] => false
     | _ :: s' => contains s' needle
     end.

Definition str_eqb (a b : str) : bool := bool_decide (a = b).

(** Truthiness of a string: non-empty. *)
Definition truthy (s : str) : bool :=
  match s with [] => false | _ :: _ => true end.

(** The lower-case mapping of [str.lower] outside ASCII, also interpreter
    data: the mapping of one character may depend on the text before and
    after it (the final sigma). *)
Class UnicodeLower := {
  lower_ext : str -> char -> str -> str
}.

Definition ascii_lower (c : char) : char :=
  if (0x41 <=? c) && (c <=? 0x5A) then c + 0x20 else c.

Fixpoint lower_from `{UnicodeLower} (before s : str) : str :=
  match s with
  | [] => []
  | c :: s' =>
    (if c <? 0x80 then [ascii_lower c] else lower_ext before c s')
      ++ lower_from (before ++ [c]) s'
  end.

(** [s.lower()] *)
Definition lower `{UnicodeLower} (s : str) : str := lower_from [] s.

(** [s.replace(old, new)] for one-character [old] and [new]. *)
Definition replace (old new : char) (s : str) : str :=
  map (fun c => if c =? old then new else c) s.

(** [a < b] on strings: code point by code point, a proper prefix first. *)
Fixpoint str_ltb (a b : str) : bool :=
  match a, b with
  | _, [] => false
  | [], _ :: _ => true
  | x :: a', y :: b' => (x <? y) || ((x =? y) && str_ltb a' b')
  end.

Fixpoint uint_digits (d : Decimal.uint) : str :=
  match d with
  | Decimal.Nil => []
  | Decimal.D0 d => 0x30 :: uint_digits d
  | Decimal.D1 d => 0x31 :: uint_digits d
  | Decimal.D2 d => 0x32 :: uint_digits d
  | Decimal.D3 d => 0x33 :: uint_digits d
  | Decimal.D4 d => 0x34 :: uint_digits d
  | Decimal.D5 d => 0x35 :: uint_digits d
  | Decimal.D6 d => 0x36 :: uint_digits d
  | Decimal.D7 d => 0x37 :: uint_digits d
  | Decimal.D8 d => 0x38 :: uint_digits d
  | Decimal.D9 d => 0x39 :: uint_digits d
  end.

(** [str(n)] of a length: its decimal digits. *)
Definition str_of_nat (n : nat) : str := uint_digits (Nat.to_uint n).

(** ** Regular expressions

    The fragment of [re] the program uses: literal text, greedy
    repetition of a character class, capturing groups, concatenation. *)
Inductive regex :=
| Lit (s : str)
| Star (cls : char -> bool)
| Plus (cls : char -> bool)
| Group (r : regex)
| Cat (r1 r2 : regex).

Section Matcher.
Context {A : Type}.

(** Greedy repetition: the longest run first, then shorter ones while
    the rest of the pattern (the continuation [k]) fails. *)
Fixpoint star (cls : char -> bool) (s : str) (k : str -> option A)
  : option A :=
  match s with
  | c :: s' =>
    if cls c then
      match star cls s' k with
      | Some r => Some r
      | None => k s
      end
    else k s
  | [] => k []
  end.

(** [caps] are the groups closed so far, in order. *)
Fixpoint rmatch (r : regex) (s : str) (caps : list str)
         (k : str -> list str -> option A) : option A :=
  match r with
  | Lit l => if startswith s l then k (drop (length l) s) caps else None
  | Star cls => star cls s (fun s' => k s' caps)
  | Plus cls =>
    match s with
    | c :: s' => if cls c then star cls s' (fun s'' => k s'' caps) else None
    | [] => None
    end
  | Group r1 =>
    rmatch r1 s caps
      (fun s' caps' => k s' (caps' ++ [take (length s - length s') s]))
  | Cat r1 r2 => rmatch r1 s caps (fun s' caps' => rmatch r2 s' caps' k)
  end.
End Matcher.

(** [pattern.match(s)]: anchored at the start, the groups of the first
    match found. *)
Definition re_match (r : regex) (s : str) : option (list str) :=
  rmatch r s [] (fun _ caps => Some caps).

(** [match.group(i)], [i >= 1] *)
Definition group (m : list str) (i : nat) : str := nth (pred i) m [].

Fixpoint seq_re (rs : list regex) : regex :=
  match rs with
  | [] => Lit []
  | [r] => r
  | r :: rest => Cat r (seq_re rest)
  end.

Definition not_char (x : char) : char -> bool := fun c => negb (c =? x).

(** The pattern of a Field line: the literal [Field=], then four times a
    double-quoted segment of characters other than the double quote (a
    group each), every one followed by a comma and [\s] any number of
    times, then a last group of characters other than the comma.  Every
    repetition is greedy and may be empty. *)
Definition _FIELD_PATTERN : regex :=
  seq_re [ Lit (u "Field=" ++ [DQUOTE]); Group (Star (not_char DQUOTE));
           Lit (DQUOTE :: u ","); Star isspace;
           Lit [DQUOTE]; Group (Star (not_char DQUOTE));
           Lit (DQUOTE :: u ","); Star isspace;
           Lit [DQUOTE]; Group (Star (not_char DQUOTE));
           Lit (DQUOTE :: u ","); Star isspace;
           Lit [DQUOTE]; Group (Star (not_char DQUOTE));
           Lit (DQUOTE :: u ","); Star isspace;
           Group (Star (not_char 0x2C)) ].

(** [Index=([^=]+)=(\d+),(.+)] *)
Definition _INDEX_PATTERN `{UnicodeData} : regex :=
  seq_re [ Lit (u "Index="); Group (Plus (not_char 0x3D)); Lit (u "=");
           Group (Plus isdecimal); Lit (u ","); Group (Plus (not_char NL)) ].

(** [_SECTION_SPLIT_PATTERN.split(s)] for the pattern [\n(?=\[)]: the
    text is cut at every newline that is directly followed by an opening
    bracket; the newline is dropped, the bracket opens the next piece.
    There is always at least one piece. *)
Fixpoint _SECTION_SPLIT_PATTERN_split (s : str) : list str :=
  match s with
  | [] => [[]]
  | c :: s' =>
    if (c =? NL) && startswith s' (u "[")
    then [] :: _SECTION_SPLIT_PATTERN_split s'
    else match _SECTION_SPLIT_PATTERN_split s' with
         | h :: t => (c :: h) :: t
         | [] => [[c]]
         end
  end.

(** ** Data model

    One module per dataclass, so that the fields keep their names. *)

Module Column.
Record t := {
  logical_name : str;
  physical_name : str;
  data_type : str;
  not_null : bool;
  is_pk : bool
}.
End Column.

Module TableIndex.
Record t := {
  name : str;
  is_unique : bool;
  columns : list str
}.
End TableIndex.

Module Table.
Record t := {
  physical_name : str;
  logical_name : str;
  page : str;
  columns : list Column.t;
  indexes : list TableIndex.t
}.
End Table.

Module ForeignKey.
Record t := {
  parent_table : str;
  child_table : str;
  parent_column : str;
  child_column : str
}.
End ForeignKey.

(** ** The document parser *)

Module A5erParser.

Record t := { _content : str }.

(** The constructor removes one leading byte-order mark. *)
Definition __init__ (content : str) : t :=
  {| _content := if startswith content [BOM] then drop 1 content
                 else content |}.

Definition _iter_sections (self : t) : list str :=
  _SECTION_SPLIT_PATTERN_split (_content self).

Definition _parse_column `{UnicodeData} (line : str) : option Column.t :=
  match re_match _FIELD_PATTERN line with
  | None => None
  | Some m =>
    let constraints := group m 4 in
    let pk_flag := strip (group m 5) in
    Some {| Column.logical_name := group m 1;
            Column.physical_name := group m 2;
            Column.data_type := group m 3;
            Column.not_null := contains (upper constraints) (u "NOT NULL");
            Column.is_pk := str_eqb pk_flag (u "0") |}
  end.

Definition _parse_index `{UnicodeData} (line : str) : option TableIndex.t :=
  match re_match _INDEX_PATTERN line with
  | None => None
  | Some m =>
    Some {| TableIndex.name := group m 1;
            TableIndex.is_unique := str_eqb (group m 2) (u "1");
            TableIndex.columns := map strip (split 0x2C (group m 3)) |}
  end.

(** The local variables of [_parse_table] while it scans the lines. *)
Record entity_vars := {
  physical_name : str;
  logical_name : str;
  page : str;
  columns : list Column.t;
  indexes : list TableIndex.t
}.

Definition entity_init : entity_vars :=
  {| physical_name := []; logical_name := []; page := [];
     columns := []; indexes := [] |}.

(** One iteration of the loop of [_parse_table]. *)
Definition entity_line `{UnicodeData} (v : entity_vars) (line0 : str)
  : entity_vars :=
  let line := strip line0 in
  if startswith line (u "PName=") then
    {| physical_name := drop 6 line; logical_name := logical_name v;
       page := page v; columns := columns v; indexes := indexes v |}
  else if startswith line (u "LName=") then
    {| physical_name := physical_name v; logical_name := drop 6 line;
       page := page v; columns := columns v; indexes := indexes v |}
  else if startswith line (u "Page=") then
    {| physical_name := physical_name v; logical_name := logical_name v;
       page := drop 5 line; columns := columns v; indexes := indexes v |}
  else if startswith line (u "Field=") then
    match _parse_column line with
    | Some col =>
      {| physical_name := physical_name v; logical_name := logical_name v;
         page := page v; columns := columns v ++ [col];
         indexes := indexes v |}
    | None => v
    end
  else if startswith line (u "Index=") then
    match _parse_index line with
    | Some idx =>
      {| physical_name := physical_name v; logical_name := logical_name v;
         page := page v; columns := columns v;
         indexes := indexes v ++ [idx] |}
    | None => v
    end
  else v.

Definition _parse_table `{UnicodeData} (lines : list str) : option Table.t :=
  let v := fold_left entity_line lines entity_init in
  if negb (truthy (physical_name v)) then None
  else Some {| Table.physical_name := physical_name v;
               Table.logical_name := logical_name v;
               Table.page := page v;
               Table.columns := columns v;
               Table.indexes := indexes v |}.

(** The local variables of [_parse_foreign_key], as a [ForeignKey.t]
    under construction; all four start empty. *)
Definition relation_init : ForeignKey.t :=
  {| ForeignKey.parent_table := []; ForeignKey.child_table := [];
     ForeignKey.parent_column := []; ForeignKey.child_column := [] |}.

(** One iteration of the loop of [_parse_foreign_key]. *)
Definition relation_line (v : ForeignKey.t) (line0 : str) : ForeignKey.t :=
  let line := strip line0 in
  if startswith line (u "Entity1=") then
    {| ForeignKey.parent_table := drop 8 line;
       ForeignKey.child_table := ForeignKey.child_table v;
       ForeignKey.parent_column := ForeignKey.parent_column v;
       ForeignKey.child_column := ForeignKey.child_column v |}
  else if startswith line (u "Entity2=") then
    {| ForeignKey.parent_table := ForeignKey.parent_table v;
       ForeignKey.child_table := drop 8 line;
       ForeignKey.parent_column := ForeignKey.parent_column v;
       ForeignKey.child_column := ForeignKey.child_column v |}
  else if startswith line (u "Fields1=") then
    {| ForeignKey.parent_table := ForeignKey.parent_table v;
       ForeignKey.child_table := ForeignKey.child_table v;
       ForeignKey.parent_column := drop 8 line;
       ForeignKey.child_column := ForeignKey.child_column v |}
  else if startswith line (u "Fields2=") then
    {| ForeignKey.parent_table := ForeignKey.parent_table v;
       ForeignKey.child_table := ForeignKey.child_table v;
       ForeignKey.parent_column := ForeignKey.parent_column v;
       ForeignKey.child_column := drop 8 line |}
  else v.

Definition _parse_foreign_key (lines : list str) : option ForeignKey.t :=
  let v := fold_left relation_line lines relation_init in
  if negb (truthy (ForeignKey.parent_table v)
           && truthy (ForeignKey.child_table v)
           && truthy (ForeignKey.parent_column v)
           && truthy (ForeignKey.child_column v))
  then None
  else Some v.

(** The body of the loop of [parse] over the sections; the state is the
    pair of result lists. *)
Definition parse_section `{UnicodeData}
           (acc : list Table.t * list ForeignKey.t) (section : str)
  : list Table.t * list ForeignKey.t :=
  match split NL (strip section) with
  | [] => acc
  | line0 :: body =>
    let header := strip line0 in
    if str_eqb header (u "[Entity]") then
      match _parse_table body with
      | Some table => (acc.1 ++ [table], acc.2)
      | None => acc
      end
    else if str_eqb header (u "[Relation]") then
      match _parse_foreign_key body with
      | Some fk => (acc.1, acc.2 ++ [fk])
      | None => acc
      end
    else acc
  end.

Definition parse_sections `{UnicodeData} (sections : list str)
  : list Table.t * list ForeignKey.t :=
  fold_left parse_section sections ([], []).

Definition parse `{UnicodeData} (self : t)
  : list Table.t * list ForeignKey.t :=
  parse_sections (_iter_sections self).

End A5erParser.

(** ** The relation index *)

Module RelationIndex.

Record t := {
  _outgoing : gmap str (list ForeignKey.t);
  _incoming : gmap str (list ForeignKey.t)
}.

(** [d.setdefault(key, []).append(fk)] *)
Definition setdefault_append (key : str) (fk : ForeignKey.t)
           (d : gmap str (list ForeignKey.t)) : gmap str (list ForeignKey.t) :=
  <[key := default [] (d !! key) ++ [fk]]> d.

Definition add (self : t) (fk : ForeignKey.t) : t :=
  {| _outgoing :=
       setdefault_append (ForeignKey.child_table fk) fk (_outgoing self);
     _incoming :=
       setdefault_append (ForeignKey.parent_table fk) fk (_incoming self) |}.

Definition __init__ (foreign_keys : list ForeignKey.t) : t :=
  fold_left add foreign_keys {| _outgoing := ∅; _incoming := ∅ |}.

Definition get_outgoing (self : t) (table_name : str) : list ForeignKey.t :=
  default [] (_outgoing self !! table_name).

Definition get_incoming (self : t) (table_name : str) : list ForeignKey.t :=
  default [] (_incoming self !! table_name).

End RelationIndex.

(** ** The report renderer *)

Module MarkdownGenerator.

Record t := {
  _table_map : gmap str Table.t;
  _relation_index : RelationIndex.t
}.

(** [{t.physical_name: t for t in tables}]: a later table replaces an
    earlier one of the same name. *)
Definition __init__ (tables : list Table.t)
           (relation_index : RelationIndex.t) : t :=
  {| _table_map :=
       fold_left (fun m tb => <[Table.physical_name tb := tb]> m) tables ∅;
     _relation_index := relation_index |}.

(** [buf.write(s)]; the buffer is its text so far. *)
Definition write (buf s : str) : str := buf ++ s.

Definition write_column (buf : str) (col : Column.t) : str :=
  let not_null := if Column.not_null col then u "✓" else [] in
  let pk := if Column.is_pk col then u "✓" else [] in
  write buf (u "| " ++ Column.physical_name col ++ u " | "
             ++ Column.logical_name col ++ u " | "
             ++ Column.data_type col ++ u " | " ++ not_null ++ u " | "
             ++ pk ++ u " |" ++ [NL]).

Definition write_index (buf : str) (idx : TableIndex.t) : str :=
  let unique_mark := if TableIndex.is_unique idx then u "[UNIQUE] " else [] in
  let cols := join (u ", ") (TableIndex.columns idx) in
  write buf (u "- " ++ unique_mark ++ u "`" ++ TableIndex.name idx
             ++ u "`: " ++ cols ++ [NL]).

Definition write_outgoing (self : t) (buf : str) (fk : ForeignKey.t) : str :=
  let parent := _table_map self !! ForeignKey.parent_table fk in
  let label :=
    match parent with
    | Some parent =>
      ForeignKey.parent_table fk ++ u " (" ++ Table.logical_name parent
      ++ u ")"
    | None => ForeignKey.parent_table fk
    end in
  write buf (u "- `" ++ ForeignKey.child_column fk ++ u "` → `" ++ label
             ++ u "." ++ ForeignKey.parent_column fk ++ u "`" ++ [NL]).

Definition write_incoming (self : t) (buf : str) (fk : ForeignKey.t) : str :=
  let child := _table_map self !! ForeignKey.child_table fk in
  let label :=
    match child with
    | Some child =>
      ForeignKey.child_table fk ++ u " (" ++ Table.logical_name child
      ++ u ")"
    | None => ForeignKey.child_table fk
    end in
  write buf (u "- `" ++ label ++ u "." ++ ForeignKey.child_column fk
             ++ u "` → `" ++ ForeignKey.parent_column fk ++ u "`" ++ [NL]).

Definition nonempty {A} (l : list A) : bool :=
  match l with [] => false | _ :: _ => true end.

Definition _write_table (self : t) (buf : str) (table : Table.t) : str :=
  let buf := write buf (u "### " ++ Table.physical_name table ++ u " ("
                        ++ Table.logical_name table ++ u ")" ++ [NL; NL]) in
  let buf := write buf (u "#### カラム" ++ [NL; NL]) in
  let buf := write buf (u "| 物理名 | 論理名 | 型 | NOT NULL | PK |" ++ [NL]) in
  let buf := write buf (u "|--------|--------|-----|:--------:|:--:|"
                        ++ [NL]) in
  let buf := fold_left write_column (Table.columns table) buf in
  let buf := write buf [NL] in
  let buf :=
    if nonempty (Table.indexes table) then
      let buf := write buf (u "#### インデックス" ++ [NL; NL]) in
      let buf := fold_left write_index (Table.indexes table) buf in
      write buf [NL]
    else buf in
  let outgoing :=
    RelationIndex.get_outgoing (_relation_index self)
                               (Table.physical_name table) in
  let buf :=
    if nonempty outgoing then
      let buf := write buf (u "#### 参照するテーブル (外部キー)"
                            ++ [NL; NL]) in
      let buf := fold_left (write_outgoing self) outgoing buf in
      write buf [NL]
    else buf in
  let incoming :=
    RelationIndex.get_incoming (_relation_index self)
                               (Table.physical_name table) in
  let buf :=
    if nonempty incoming then
      let buf := write buf (u "#### 参照されるテーブル" ++ [NL; NL]) in
      let buf := fold_left (write_incoming self) incoming buf in
      write buf [NL]
    else buf in
  write buf (u "---" ++ [NL; NL]).

Definition write_toc `{UnicodeLower} (buf : str) (table : Table.t) : str :=
  write buf (u "- [" ++ Table.physical_name table ++ u "](#"
             ++ lower (Table.physical_name table) ++ u ") ("
             ++ Table.logical_name table ++ u ")" ++ [NL]).

Definition generate_page `{UnicodeLower} (self : t) (page_name : str)
           (tables : list Table.t) : str :=
  let buf := [] in
  let buf := write buf (u "# " ++ page_name ++ [NL; NL]) in
  let buf := write buf (u "- テーブル数: " ++ str_of_nat (length tables)
                        ++ [NL; NL]) in
  let buf := write buf (u "## テーブル一覧" ++ [NL; NL]) in
  let buf := fold_left write_toc tables buf in
  let buf := write buf [NL] in
  let buf := fold_left (_write_table self) tables buf in
  buf.

End MarkdownGenerator.

(** ** The entry point

    The computations of [main] on the parsed tables: grouping them by
    page, sorting every page, and naming the output file of a page.
    Reading the input file and writing the output files are not part of
    the model. *)

Module main.

(** [pages.setdefault(key, []).append(table)] on a dictionary that keeps
    its keys in the order of their insertion. *)
Fixpoint setdefault_append (pages : list (str * list Table.t)) (key : str)
         (table : Table.t) : list (str * list Table.t) :=
  match pages with
  | [] => [(key, [table])]
  | (k, page_tables) :: rest =>
    if bool_decide (k = key) then (k, page_tables ++ [table]) :: rest
    else (k, page_tables) :: setdefault_append rest key table
  end.

(** The loop that groups the tables by page. *)
Definition pages (tables : list Table.t) : list (str * list Table.t) :=
  fold_left
    (fun pages table => setdefault_append pages (Table.page table) table)
    tables [].

(** [page_tables.sort(key=lambda t: t.physical_name)]: a stable sort by
    [<] on the keys.  The result of a stable sort does not depend on the
    algorithm; it is computed here by insertion from the right. *)
Fixpoint insert (table : Table.t) (sorted : list Table.t) : list Table.t :=
  match sorted with
  | [] => [table]
  | x :: rest =>
    if str_ltb (Table.physical_name x) (Table.physical_name table)
    then x :: insert table rest
    else table :: x :: rest
  end.

Fixpoint sort (page_tables : list Table.t) : list Table.t :=
  match page_tables with
  | [] => []
  | table :: rest => insert table (sort rest)
  end.

Definition sorted_pages (tables : list Table.t) : list (str * list Table.t) :=
  map (fun kv => (kv.1, sort kv.2)) (pages tables).

Definition safe_filename (page_name : str) : str :=
  replace 0x2F 0x5F (replace 0x20 0x5F page_name).

(** The name of an output file inside the output directory. *)
Definition output_name (page_name timestamp : str) : str :=
  safe_filename page_name ++ u "_" ++ timestamp ++ u ".md".

End main.

(** * Vocabulary of the statements *)

(** A string stops a run of [f] when it is empty or starts outside [f]. *)
Definition stops (f : N -> bool) (s : str) : Prop :=
  match s with [] => True | c :: _ => f c = false end.

Definition spaces (s : str) : Prop := Forall (fun c => isspace c = true) s.
Definition without (x : N) (s : str) : Prop :=
  Forall (fun c => not_char x c = true) s.

(** The text of a Field line: four double-quoted segments [a], [b], [c],
    [d], each followed by a comma and whitespace [w1] .. [w4], then the
    trailing token [tok] and what follows it. *)
Definition field_text (a w1 b w2 c w3 d w4 tok rest : str) : str :=
  (u "Field=" ++ [DQUOTE]) ++ a ++ (DQUOTE :: u ",") ++ w1 ++
  [DQUOTE] ++ b ++ (DQUOTE :: u ",") ++ w2 ++
  [DQUOTE] ++ c ++ (DQUOTE :: u ",") ++ w3 ++
  [DQUOTE] ++ d ++ (DQUOTE :: u ",") ++ w4 ++ tok ++ rest.

(** [line] is a Field line with the quoted segments [a], [b], [c], [d]
    and the trailing token [tok]: the segments hold no double quote, the
    token holds no comma and runs to the next comma or to the end. *)
Definition FieldLine (line a b c d tok : str) : Prop :=
  exists w1 w2 w3 w4 rest,
    line = field_text a w1 b w2 c w3 d w4 tok rest
    /\ without DQUOTE a /\ without DQUOTE b /\ without DQUOTE c
    /\ without DQUOTE d
    /\ spaces w1 /\ spaces w2 /\ spaces w3 /\ spaces w4
    /\ without 0x2C tok /\ stops (not_char 0x2C) rest.


Definition is_ascii (s : str) : Prop := Forall (fun c => c < 0x80) s.

(** [hay] contains [needle] when letter case is ignored: the upper-cased
    needle occurs in the upper-cased [hay]. *)
Definition ci_contains `{UnicodeData} (hay needle : str) : Prop :=
  exists pre post, upper hay = pre ++ upper needle ++ post.

(** Eight (or however many) consecutive characters of [hay] that read as
    [needle] once ASCII letters are upper-cased. *)
Definition ascii_ci_window (hay needle : str) : Prop :=
  exists pre w post,
    hay = pre ++ w ++ post /\ map ascii_upper w = map ascii_upper needle.

(** The sample Field lines of the round-trip scenario. *)
Definition sample_field_id : str :=
  field_text (u "ID") [] (u "id") [] (u "INTEGER") [] (u "NOT NULL") []
             (u "0") [].
Definition sample_field_name : str :=
  field_text (u "Name") [] (u "name") [] (u "VARCHAR") [] [] [] (u "1") [].

(** The text of an Index line. *)
Definition index_text (nm flag cols : str) : str :=
  u "Index=" ++ nm ++ u "=" ++ flag ++ u "," ++ cols.

(** [line] is an Index line with name [nm], flag [flag] and the column
    tokens [pieces] separated by commas: the name is not empty and holds
    no equals sign, the flag is a non-empty run of decimal digits, the
    tokens hold no comma, and the column list is not empty.  A line has
    no newline in it. *)
Definition IndexLine `{UnicodeData} (line nm flag : str) (pieces : list str)
  : Prop :=
  line = index_text nm flag (join (u ",") pieces)
  /\ nm <> [] /\ without 0x3D nm
  /\ flag <> [] /\ Forall (fun c => isdecimal c = true) flag
  /\ Forall (without 0x2C) pieces /\ join (u ",") pieces <> []
  /\ without NL (join (u ",") pieces).

Definition sample_index : str := u "Index=idx_name=0,name".

(** The value a line gives to the scalar field [prefix]: the rest of the
    trimmed line after the prefix, when the trimmed line starts with it. *)
Definition value_of (prefix line : str) : option str :=
  if startswith (strip line) prefix
  then Some (drop (length prefix) (strip line))
  else None.

(** All the values the lines of a section give to [prefix], in order. *)
Definition values_of (prefix : str) (lines : list str) : list str :=
  omap (value_of prefix) lines.

(** The value of the last line that sets [prefix]; empty when none does. *)
Definition last_value (prefix : str) (lines : list str) : str :=
  default [] (last (values_of prefix lines)).

(** A field is missing when no line sets it, and has an empty value when
    the value it ends up with is empty. *)
Definition missing_or_empty (prefix : str) (lines : list str) : Prop :=
  values_of prefix lines = [] \/ last (values_of prefix lines) = Some [].

(** [sec] is a section block with header [header] and body lines [body]:
    the block is trimmed, cut into lines, and the first line, trimmed, is
    the header. *)
Definition SectionOf (sec header : str) (body : list str) : Prop :=
  exists line0, split NL (strip sec) = line0 :: body /\ strip line0 = header.

(** The input of the round-trip scenario, line by line. *)
Definition sample_document : str :=
  join [NL]
    [ u "[Entity]"; u "PName=users"; u "LName=User"; u "Page=Main";
      sample_field_id; sample_field_name; sample_index;
      u "[Relation]"; u "Entity1=users"; u "Entity2=orders";
      u "Fields1=id"; u "Fields2=user_id" ].

Definition sample_table : Table.t :=
  {| Table.physical_name := u "users";
     Table.logical_name := u "User";
     Table.page := u "Main";
     Table.columns :=
       [ {| Column.logical_name := u "ID"; Column.physical_name := u "id";
            Column.data_type := u "INTEGER";
            Column.not_null := true; Column.is_pk := true |};
         {| Column.logical_name := u "Name"; Column.physical_name := u "name";
            Column.data_type := u "VARCHAR";
            Column.not_null := false; Column.is_pk := false |} ];
     Table.indexes :=
       [ {| TableIndex.name := u "idx_name"; TableIndex.is_unique := false;
            TableIndex.columns := [u "name"] |} ] |}.

Definition sample_foreign_key : ForeignKey.t :=
  {| ForeignKey.parent_table := u "users";
     ForeignKey.child_table := u "orders";
     ForeignKey.parent_column := u "id";
     ForeignKey.child_column := u "user_id" |}.

(** A document whose first Entity section has no PName= line, and one
    whose first Relation section lacks Fields2=. *)
Definition nameless_entity_document : str :=
  join [NL] [ u "[Entity]"; u "LName=Ghost"; u "[Entity]"; u "PName=users" ].

Definition partial_relation_document : str :=
  join [NL] [ u "[Relation]"; u "Entity1=users"; u "Entity2=orders";
              u "Fields1=id"; u "[Entity]"; u "PName=users" ].

Definition users_only : Table.t :=
  {| Table.physical_name := u "users"; Table.logical_name := [];
     Table.page := []; Table.columns := []; Table.indexes := [] |}.

(** A document that itself starts with a byte-order mark. *)
Definition marked_document : str :=
  BOM :: join [NL] [ u "[Entity]"; u "PName=users" ].

(** The sum of the lengths of all the lists of a mapping. *)
Definition total_length (d : gmap str (list ForeignKey.t)) : nat :=
  map_fold (fun _ fks n => (length fks + n)%nat) 0%nat d.

(** The foreign keys of [fks] whose child, respectively parent, table is
    [table_name], in the order of [fks]. *)
Definition with_child (table_name : str) (fks : list ForeignKey.t)
  : list ForeignKey.t :=
  filter (fun fk => ForeignKey.child_table fk = table_name) fks.

Definition with_parent (table_name : str) (fks : list ForeignKey.t)
  : list ForeignKey.t :=
  filter (fun fk => ForeignKey.parent_table fk = table_name) fks.

(** What the renderer writes for a table before its relations: the
    header, the column table and, when there are indexes, their list. *)
Definition column_row (col : Column.t) : str :=
  u "| " ++ Column.physical_name col ++ u " | " ++ Column.logical_name col
  ++ u " | " ++ Column.data_type col ++ u " | "
  ++ (if Column.not_null col then u "✓" else []) ++ u " | "
  ++ (if Column.is_pk col then u "✓" else []) ++ u " |" ++ [NL].

Definition index_item (idx : TableIndex.t) : str :=
  u "- " ++ (if TableIndex.is_unique idx then u "[UNIQUE] " else [])
  ++ u "`" ++ TableIndex.name idx ++ u "`: "
  ++ join (u ", ") (TableIndex.columns idx) ++ [NL].

(** A titled list of items, absent when there is no item. *)
Definition block (title : str) (items : list str) : str :=
  match items with
  | [] => []
  | _ :: _ => title ++ [NL; NL] ++ concat items ++ [NL]
  end.

Definition table_head (table : Table.t) : str :=
  u "### " ++ Table.physical_name table ++ u " ("
  ++ Table.logical_name table ++ u ")" ++ [NL; NL]
  ++ u "#### カラム" ++ [NL; NL]
  ++ u "| 物理名 | 論理名 | 型 | NOT NULL | PK |" ++ [NL]
  ++ u "|--------|--------|-----|:--------:|:--:|" ++ [NL]
  ++ concat (map column_row (Table.columns table)) ++ [NL]
  ++ block (u "#### インデックス") (map index_item (Table.indexes table)).

(** The item of a foreign key in the outgoing and in the incoming list,
    given the label shown for the table it refers to. *)
Definition outgoing_item (label : str) (fk : ForeignKey.t) : str :=
  u "- `" ++ ForeignKey.child_column fk ++ u "` → `" ++ label ++ u "."
  ++ ForeignKey.parent_column fk ++ u "`" ++ [NL].

Definition incoming_item (label : str) (fk : ForeignKey.t) : str :=
  u "- `" ++ label ++ u "." ++ ForeignKey.child_column fk ++ u "` → `"
  ++ ForeignKey.parent_column fk ++ u "`" ++ [NL].

(** The label of a referenced table: the bare name when the table map
    has no such table, the name with the logical name in parentheses
    when it has. *)
Definition Labelled (table_map : gmap str Table.t) (table_name label : str)
  : Prop :=
  (table_map !! table_name = None /\ label = table_name)
  \/ (exists tb, table_map !! table_name = Some tb
                 /\ label = table_name ++ u " (" ++ Table.logical_name tb
                            ++ u ")").

(** The label computed from the table map. *)
Definition label_in (table_map : gmap str Table.t) (table_name : str) : str :=
  match table_map !! table_name with
  | Some tb => table_name ++ u " (" ++ Table.logical_name tb ++ u ")"
  | None => table_name
  end.

(** The table a name refers to among [tables]: the last one so named. *)
Definition table_named (tables : list Table.t) (table_name : str)
  : option Table.t :=
  last (filter (fun tb => Table.physical_name tb = table_name) tables).

(** The rendering of the sample table the round-trip scenario expects:
    check marks for id only, the index list, and the incoming relation
    from orders, whose table is not in the map. *)
Definition sample_rendering : str :=
  join [NL]
    [ u "### users (User)"; [];
      u "#### カラム"; [];
      u "| 物理名 | 論理名 | 型 | NOT NULL | PK |";
      u "|--------|--------|-----|:--------:|:--:|";
      u "| id | ID | INTEGER | ✓ | ✓ |";
      u "| name | Name | VARCHAR |  |  |"; [];
      u "#### インデックス"; [];
      u "- `idx_name`: name"; [];
      u "#### 参照されるテーブル"; [];
      u "- `orders.user_id` → `id`"; [];
      u "---"; []; [] ].

(** A table orders that refers to users, for the outgoing direction. *)
Definition orders_table : Table.t :=
  {| Table.physical_name := u "orders"; Table.logical_name := u "Order";
     Table.page := u "Main"; Table.columns := []; Table.indexes := [] |}.

Definition orders_rendering : str :=
  join [NL]
    [ u "### orders (Order)"; [];
      u "#### カラム"; [];
      u "| 物理名 | 論理名 | 型 | NOT NULL | PK |";
      u "|--------|--------|-----|:--------:|:--:|"; [];
      u "#### 参照するテーブル (外部キー)"; [];
      u "- `user_id` → `users (User).id`"; [];
      u "---"; []; [] ].

(** Unicode data in which U+0149 (n preceded by apostrophe) upper-cases
    to the two characters U+02BC, N, as it does in CPython. *)
Definition apostrophe_n : UnicodeData :=
  {| decimal_ext := fun _ => false;
     upper_ext := fun c => if c =? 0x149 then [0x2BC; 0x4E] else [c] |}.

(** A body of three lines with a column, a rejected Field line and an
    index between the scalar lines, indented and with carriage returns. *)
Definition sample_body : list str :=
  [ u "  PName=users" ++ [0x0D]; [0x09] ++ sample_field_id ++ [0x0D];
    u "Field=broken"; u " " ++ sample_index; u "LName=User  " ].

(** What one section block contributes to the result. *)
Definition section_records `{UnicodeData} (sec : str)
  : list Table.t * list ForeignKey.t :=
  A5erParser.parse_section ([], []) sec.

(** The blocks a document is cut into: no block holds a newline directly
    followed by an opening bracket, and every block but the first starts
    with an opening bracket. *)
Definition section_blocks (blocks : list str) : Prop :=
  Forall (fun b => contains b (NL :: u "[") = false) blocks
  /\ Forall (fun b => startswith b (u "[") = true) (tail blocks).

(** A document with a page header block that the parser does not know. *)
Definition document_with_comment : str :=
  join [NL] [ u "# exported"; u "[Manager]"; u "PName=ghost";
              u "[Entity]"; u "PName=users" ].

(** All the foreign keys stored in a mapping, list after list. *)
Definition all_listed (d : gmap str (list ForeignKey.t)) : list ForeignKey.t :=
  concat ((map_to_list d).*2).

(** What a mapping of the index holds for a table, given the foreign keys
    that belong there: no entry when there is none, else their list. *)
Definition entry_of (fks : list ForeignKey.t) : option (list ForeignKey.t) :=
  match fks with [] => None | _ :: _ => Some fks end.

(** The entry of a table in the table of contents of a page. *)
Definition toc_entry `{UnicodeLower} (table : Table.t) : str :=
  u "- [" ++ Table.physical_name table ++ u "](#"
  ++ lower (Table.physical_name table) ++ u ") ("
  ++ Table.logical_name table ++ u ")" ++ [NL].

(** What a page starts with: title, number of tables, table of contents. *)
Definition page_head `{UnicodeLower} (page_name : str) (tables : list Table.t)
  : str :=
  u "# " ++ page_name ++ [NL; NL]
  ++ u "- テーブル数: " ++ str_of_nat (length tables) ++ [NL; NL]
  ++ u "## テーブル一覧" ++ [NL; NL]
  ++ concat (map toc_entry tables) ++ [NL].

(** Lower-casing that leaves everything outside ASCII as it is. *)
Definition ascii_lower_only : UnicodeLower :=
  {| lower_ext := fun _ c _ => [c] |}.

(** [a <= b] on table names: [b < a] does not hold. *)
Definition name_le (a b : Table.t) : Prop :=
  str_ltb (Table.physical_name b) (Table.physical_name a) = false.

(** Tables in ascending order of their physical names. *)
Definition name_sorted (tables : list Table.t) : Prop :=
  StronglySorted name_le tables.

(** The tables of a given physical name, and of a given page, in the
    order of the list. *)
Definition named (table_name : str) (tables : list Table.t) : list Table.t :=
  filter (fun tb => Table.physical_name tb = table_name) tables.

Definition on_page (page_name : str) (tables : list Table.t) : list Table.t :=
  filter (fun tb => Table.page tb = page_name) tables.

(** The distinct elements of a list, each at its first occurrence. *)
Fixpoint first_occurrences (l : list str) : list str :=
  match l with
  | [] => []
  | x :: rest => x :: filter (fun y => y <> x) (first_occurrences rest)
  end.

(** The characters that [safe_filename] does not tell apart. *)
Definition blank_like (c : N) : Prop := c = 0x20 \/ c = 0x2F \/ c = 0x5F.

(** A document with tables on two pages, out of order. *)
Definition two_page_document : str :=
  join [NL]
    [ u "[Entity]"; u "PName=orders"; u "Page=Sales 2024";
      u "[Entity]"; u "PName=users"; u "Page=Core/Main";
      u "[Entity]"; u "PName=items"; u "Page=Sales 2024" ].

(** The first sample Field line with a blank before its trailing token. *)
Definition spaced_field : str :=
  field_text (u "ID") [] (u "id") [] (u "INTEGER") [] (u "NOT NULL") []
             (u " 0") [].

(** [col] is [piece] trimmed of whitespace: [piece] is [col] with nothing
    but whitespace before and after it, and [col] itself neither starts
    nor ends with whitespace. *)
Definition Trimmed (piece col : str) : Prop :=
  (exists l r, spaces l /\ spaces r /\ piece = l ++ col ++ r)
  /\ stops isspace col /\ stops isspace (reverse col).

(** An Index line with blanks around a column token. *)
Definition spaced_index : str := u "Index=pk=1, id ,tenant".

(** * Properties *)

(** ** Strings *)

Section StringLemmas.
Implicit Types (s p l r : str) (f : N -> bool).

Lemma startswith_app p s : startswith (p ++ s) p = true.
Proof.
  induction p as [|c p IH]; simpl; [done|].
  by rewrite N.eqb_refl, IH.
Qed.

Lemma startswith_inv s p :
  startswith s p = true -> s = p ++ drop (length p) s.
Proof.
  revert s. induction p as [|c p IH]; intros [|d s]; simpl; try done.
  intros [Hc Hs]%andb_true_iff. apply N.eqb_eq in Hc as ->.
  f_equal. by apply IH.
Qed.

Lemma startswith_iff s p :
  startswith s p = true <-> exists r, s = p ++ r.
Proof.
  split.
  - intros Hs. eexists. by apply startswith_inv.
  - intros [r ->]. apply startswith_app.
Qed.

Lemma take_drop_while f s : take_while f s ++ drop_while f s = s.
Proof.
  induction s as [|c s IH]; simpl; [done|].
  destruct (f c); simpl; [by rewrite IH | done].
Qed.

Lemma take_while_Forall f s : Forall (fun c => f c = true) (take_while f s).
Proof.
  induction s as [|c s IH]; simpl; [constructor|].
  destruct (f c) eqn:Hc; by constructor.
Qed.

Lemma drop_while_stops f s : stops f (drop_while f s).
Proof.
  induction s as [|c s IH]; simpl; [done|].
  destruct (f c) eqn:Hc; simpl; done.
Qed.

Lemma drop_while_run f run s :
  Forall (fun c => f c = true) run ->
  drop_while f (run ++ s) = drop_while f s.
Proof.
  induction 1 as [|c run Hc _ IH]; simpl; [done|]. by rewrite Hc.
Qed.

Lemma drop_while_stop f s : stops f s -> drop_while f s = s.
Proof. destruct s as [|c s]; simpl; [done|]. by intros ->. Qed.

Lemma drop_while_app_stop f s r :
  stops f r -> drop_while f (s ++ r) = drop_while f s ++ r.
Proof.
  intros Hr. induction s as [|c s IH]; simpl.
  - by apply drop_while_stop.
  - destruct (f c); [done|done].
Qed.

Lemma take_while_run f run s :
  Forall (fun c => f c = true) run -> stops f s ->
  take_while f (run ++ s) = run.
Proof.
  intros Hrun Hs. induction Hrun as [|c run Hc _ IH]; simpl.
  - destruct s as [|c s]; simpl in *; [done|]. by rewrite Hs.
  - by rewrite Hc, IH.
Qed.

Lemma drop_while_idemp f s : drop_while f (drop_while f s) = drop_while f s.
Proof. apply drop_while_stop, drop_while_stops. Qed.

Lemma drop_while_Forall_suffix (P : N -> Prop) f s :
  Forall P s -> Forall P (drop_while f s).
Proof.
  induction 1 as [|c s Hc Hs IH]; simpl; [constructor|].
  destruct (f c); [done|by constructor].
Qed.

Lemma strip_lstrip s : strip (lstrip s) = strip s.
Proof. unfold strip, lstrip. by rewrite drop_while_idemp. Qed.

(** What [strip] removes is whitespace on both sides, and nothing else. *)
Lemma strip_decompose s :
  exists l r, Forall (fun c => isspace c = true) l
              /\ Forall (fun c => isspace c = true) r
              /\ s = l ++ strip s ++ r.
Proof.
  exists (take_while isspace s),
         (reverse (take_while isspace (reverse (lstrip s)))).
  split; [apply take_while_Forall|].
  split; [apply Forall_reverse, take_while_Forall|].
  unfold strip, rstrip. rewrite <- reverse_app, take_drop_while.
  rewrite reverse_involutive. unfold lstrip.
  by rewrite take_drop_while.
Qed.

Lemma drop_while_all f s :
  Forall (fun c => f c = true) s -> drop_while f s = [].
Proof.
  intros Hs. rewrite <- (app_nil_r s). by rewrite drop_while_run.
Qed.

(** Whitespace around a core that neither starts nor ends with
    whitespace is exactly what [strip] removes. *)
Lemma strip_core l core r :
  Forall (fun c => isspace c = true) l ->
  Forall (fun c => isspace c = true) r ->
  core <> [] -> stops isspace core -> stops isspace (reverse core) ->
  strip (l ++ core ++ r) = core.
Proof.
  intros Hl Hr Hne Hc Hrc. unfold strip, lstrip, rstrip.
  rewrite drop_while_run by done.
  rewrite (drop_while_stop _ (core ++ r)).
  2:{ destruct core as [|c core]; [done|]. exact Hc. }
  rewrite reverse_app, drop_while_run by by apply Forall_reverse.
  rewrite drop_while_stop by done. apply reverse_involutive.
Qed.

Lemma take_length_while f s :
  take (length s - length (drop_while f s)) s = take_while f s.
Proof.
  pose proof (take_drop_while f s) as E.
  remember (take_while f s) as tw eqn:Htw.
  remember (drop_while f s) as dw eqn:Hdw.
  clear Htw Hdw. subst s. rewrite length_app.
  replace (length tw + length dw - length dw)%nat with (length tw) by lia.
  apply take_app_length.
Qed.

End StringLemmas.

(** ** The matcher on the shapes of the program's patterns

    Each lemma says: when the rest of the pattern succeeds after the
    greedy choice, the match is that one. *)

Section MatcherLemmas.
Context {A : Type}.
Implicit Types (s l : str) (caps : list str) (f : N -> bool)
         (k : str -> list str -> option A) (res : A).

Lemma star_greedy f s (k1 : str -> option A) res :
  k1 (drop_while f s) = Some res -> star f s k1 = Some res.
Proof.
  induction s as [|c s IH]; simpl; [done|].
  destruct (f c); [|done]. intros Hk. by rewrite (IH Hk).
Qed.

Lemma rmatch_cat r1 r2 s caps k res :
  rmatch r1 s caps (fun s' caps' => rmatch r2 s' caps' k) = Some res ->
  rmatch (Cat r1 r2) s caps k = Some res.
Proof. done. Qed.

Lemma rmatch_lit l s caps k res :
  k s caps = Some res -> rmatch (Lit l) (l ++ s) caps k = Some res.
Proof.
  intros Hk. simpl. by rewrite startswith_app, drop_app_length.
Qed.

Lemma rmatch_star f s caps k res :
  k (drop_while f s) caps = Some res ->
  rmatch (Star f) s caps k = Some res.
Proof. intros Hk. simpl. by apply star_greedy. Qed.

Lemma rmatch_group_star f s caps k res :
  k (drop_while f s) (caps ++ [take_while f s]) = Some res ->
  rmatch (Group (Star f)) s caps k = Some res.
Proof.
  intros Hk. simpl. apply star_greedy. by rewrite take_length_while.
Qed.

Lemma rmatch_group_plus f c s caps k res :
  f c = true ->
  k (drop_while f s) (caps ++ [c :: take_while f s]) = Some res ->
  rmatch (Group (Plus f)) (c :: s) caps k = Some res.
Proof.
  intros Hc Hk. cbn [rmatch]. rewrite Hc. apply star_greedy.
  pose proof (take_length_while f (c :: s)) as E.
  simpl in E. rewrite Hc in E. cbn [length]. by rewrite E.
Qed.

(** The run form: a run of the class followed by text that stops it. *)
Lemma rmatch_group_run f run s caps k res :
  Forall (fun c => f c = true) run -> stops f s ->
  k s (caps ++ [run]) = Some res ->
  rmatch (Group (Star f)) (run ++ s) caps k = Some res.
Proof.
  intros Hrun Hs Hk. apply rmatch_group_star.
  rewrite drop_while_run, drop_while_stop, take_while_run; done.
Qed.

Lemma rmatch_star_run f run s caps k res :
  Forall (fun c => f c = true) run -> stops f s ->
  k s caps = Some res ->
  rmatch (Star f) (run ++ s) caps k = Some res.
Proof.
  intros Hrun Hs Hk. apply rmatch_star.
  rewrite drop_while_run, drop_while_stop; done.
Qed.

Lemma rmatch_group_plus_run f run s caps k res :
  run <> [] -> Forall (fun c => f c = true) run -> stops f s ->
  k s (caps ++ [run]) = Some res ->
  rmatch (Group (Plus f)) (run ++ s) caps k = Some res.
Proof.
  intros Hne Hrun Hs Hk. destruct run as [|c run]; [done|].
  apply Forall_cons in Hrun as [Hc Hrun].
  change ((c :: run) ++ s) with (c :: (run ++ s)).
  apply rmatch_group_plus; [done|].
  rewrite drop_while_run, drop_while_stop, take_while_run; done.
Qed.
End MatcherLemmas.

(** ** Field lines *)

Lemma field_match a w1 b w2 c w3 d w4 tok rest :
  without DQUOTE a -> without DQUOTE b -> without DQUOTE c ->
  without DQUOTE d ->
  spaces w1 -> spaces w2 -> spaces w3 -> spaces w4 ->
  without 0x2C tok -> stops (not_char 0x2C) rest ->
  re_match _FIELD_PATTERN (field_text a w1 b w2 c w3 d w4 tok rest)
  = Some [a; b; c; d; lstrip tok].
Proof.
  intros Ha Hb Hc Hd H1 H2 H3 H4 Htok Hrest.
  unfold re_match, _FIELD_PATTERN, field_text. cbn [seq_re].
  apply rmatch_cat, rmatch_lit.
  do 3 (apply rmatch_cat, rmatch_group_run; [done|exact eq_refl|];
        apply rmatch_cat, rmatch_lit;
        apply rmatch_cat, rmatch_star_run; [done|exact eq_refl|];
        apply rmatch_cat, rmatch_lit).
  apply rmatch_cat, rmatch_group_run; [done|exact eq_refl|].
  apply rmatch_cat, rmatch_lit.
  apply rmatch_cat, rmatch_star, rmatch_group_star.
  rewrite drop_while_run by done.
  rewrite drop_while_app_stop.
  2:{ destruct rest as [|x rest]; [done|]. simpl in Hrest |- *.
      unfold not_char in Hrest. apply negb_false_iff, N.eqb_eq in Hrest.
      by subst x. }
  rewrite take_while_run;
    [ | by apply drop_while_Forall_suffix | done ].
  done.
Qed.

(** A Field line is accepted, and its column is read off the segments. *)
Lemma parse_column_field `{UnicodeData} line a b c d tok :
  FieldLine line a b c d tok ->
  A5erParser._parse_column line
  = Some {| Column.logical_name := a;
            Column.physical_name := b;
            Column.data_type := c;
            Column.not_null := contains (upper d) (u "NOT NULL");
            Column.is_pk := str_eqb (strip tok) (u "0") |}.
Proof.
  intros (w1 & w2 & w3 & w4 & rest & -> & Ha & Hb & Hc & Hd
          & H1 & H2 & H3 & H4 & Htok & Hrest).
  unfold A5erParser._parse_column.
  rewrite field_match by done. cbn [group nth pred].
  by rewrite strip_lstrip.
Qed.

Lemma strip_eq_core tok core :
  core <> [] -> stops isspace core -> stops isspace (reverse core) ->
  strip tok = core <->
  exists l r, spaces l /\ spaces r /\ tok = l ++ core ++ r.
Proof.
  intros Hne Hc Hrc. split.
  - intros <-. destruct (strip_decompose tok) as (l & r & Hl & Hr & E).
    by exists l, r.
  - intros (l & r & Hl & Hr & ->). by apply strip_core.
Qed.

Lemma contains_iff s n :
  contains s n = true <-> exists pre post, s = pre ++ n ++ post.
Proof.
  induction s as [|c s IH].
  - simpl. rewrite orb_false_r, startswith_iff. split.
    + intros [r E]. by exists [], r.
    + intros (pre & post & E). symmetry in E.
      apply app_eq_nil in E as [-> E]. eauto.
  - cbn [contains]. rewrite orb_true_iff, startswith_iff, IH. split.
    + intros [[r E]|(pre & post & E)].
      * by exists [], r.
      * exists (c :: pre), post. by rewrite E.
    + intros ([|c' pre] & post & E).
      * left. by exists post.
      * right. injection E as -> E. by exists pre, post.
Qed.

Lemma upper_ascii `{UnicodeData} s : is_ascii s -> upper s = map ascii_upper s.
Proof.
  induction 1 as [|c s Hc _ IH]; [done|].
  unfold upper in *. simpl. rewrite IH. unfold toupper_full.
  apply N.ltb_lt in Hc. by rewrite Hc.
Qed.

Lemma FieldLine_sample_id :
  FieldLine sample_field_id (u "ID") (u "id") (u "INTEGER") (u "NOT NULL")
            (u "0").
Proof.
  exists [], [], [], [], []. split; [reflexivity|].
  repeat split; by repeat constructor.
Qed.

(** ** The primary-key flag and the NOT NULL constraint *)

(** C2: for every Field line, with quoted segments [a], [b], [c], [d] and
    trailing token [tok], the line is accepted and the column's [is_pk] is
    true if and only if the token, trimmed of surrounding whitespace, is
    the one-character string 0: that is, if and only if the token is a 0
    with nothing but whitespace around it.  The tokens 0 and 0 between
    spaces give true; the token 1 and the empty token give false. *)
Theorem C2_is_pk_iff_token_trims_to_zero `{UnicodeData} line a b c d tok :
  FieldLine line a b c d tok ->
  exists col,
    A5erParser._parse_column line = Some col
    /\ (Column.is_pk col = true <-> strip tok = u "0")
    /\ (Column.is_pk col = true <->
        exists l r, spaces l /\ spaces r /\ tok = l ++ u "0" ++ r)
    /\ (tok = u "0" \/ tok = u " 0 " -> Column.is_pk col = true)
    /\ (tok = u "1" \/ tok = [] -> Column.is_pk col = false).
Proof.
  intros Hline. eexists. split; [by apply parse_column_field|].
  cbn [Column.is_pk]. unfold str_eqb.
  assert (Hiff : bool_decide (strip tok = u "0") = true <-> strip tok = u "0").
  { rewrite bool_decide_eq_true. done. }
  split; [done|]. split.
  - rewrite Hiff. by apply strip_eq_core.
  - split.
    + intros [-> | ->]; by vm_compute.
    + intros [-> | ->]; by vm_compute.
Qed.

Lemma C2_witness :
  exists col,
    @A5erParser._parse_column ascii_only sample_field_id = Some col
    /\ Column.is_pk col = true.
Proof.
  destruct (@C2_is_pk_iff_token_trims_to_zero ascii_only _ _ _ _ _ _
              FieldLine_sample_id) as (col & Hcol & Hpk & _).
  exists col. split; [exact Hcol|]. apply Hpk. reflexivity.
Defined.

(** C3: for every Field line, the line is accepted and the column's
    [not_null] is true if and only if the fourth quoted segment [d]
    contains NOT NULL when letter case is ignored, anywhere in the
    segment.  Any run of consecutive characters of [d] whose upper-case
    form is NOT NULL makes it true; for a segment of ASCII characters it
    is true exactly when some run of consecutive characters of [d] reads
    NOT NULL once its letters are upper-cased.  The segments NOT NULL and not null give true; NULL and
    the empty segment give false. *)
Theorem C3_not_null_iff_constraints_contain `{UnicodeData} line a b c d tok :
  FieldLine line a b c d tok ->
  exists col,
    A5erParser._parse_column line = Some col
    /\ (Column.not_null col = true <-> ci_contains d (u "NOT NULL"))
    /\ (forall pre w post,
          d = pre ++ w ++ post -> upper w = u "NOT NULL" ->
          Column.not_null col = true)
    /\ (is_ascii d ->
        (Column.not_null col = true <-> ascii_ci_window d (u "NOT NULL")))
    /\ (d = u "NOT NULL" \/ d = u "not null" -> Column.not_null col = true)
    /\ (d = u "NULL" \/ d = [] -> Column.not_null col = false).
Proof.
  intros Hline. eexists. split; [by apply parse_column_field|].
  cbn [Column.not_null]. split; [|split; [|split; [|split]]].
  - rewrite contains_iff. unfold ci_contains.
    by change (upper (u "NOT NULL")) with (u "NOT NULL").
  - intros pre w post -> Hw. apply contains_iff.
    exists (upper pre), (upper post). unfold upper in *.
    by rewrite !flat_map_app, Hw.
  - intros Hd. rewrite contains_iff, upper_ascii by done.
    unfold ascii_ci_window.
    change (map ascii_upper (u "NOT NULL")) with (u "NOT NULL"). split.
    + intros (pre & post & E).
      apply map_eq_app in E as (pre' & rest & -> & _ & E).
      apply map_eq_app in E as (w & post' & -> & Hw & _).
      by exists pre', w, post'.
    + intros (pre & w & post & -> & Hw).
      exists (map ascii_upper pre), (map ascii_upper post).
      by rewrite !map_app, Hw.
  - intros [-> | ->]; by vm_compute.
  - intros [-> | ->]; by vm_compute.
Qed.

Lemma C3_witness :
  exists col,
    @A5erParser._parse_column ascii_only sample_field_id = Some col
    /\ Column.not_null col = true.
Proof.
  destruct (@C3_not_null_iff_constraints_contain ascii_only _ _ _ _ _ _
              FieldLine_sample_id) as (col & Hcol & _ & _ & _ & Hex & _).
  exists col. split; [exact Hcol|]. apply Hex. left. reflexivity.
Defined.

(** ** What trimming leaves *)

Lemma stops_prefix f (a b : list N) : stops f (a ++ b) -> stops f a.
Proof. by destruct a. Qed.

Lemma rstrip_rest (s : list N) :
  s = rstrip s ++ reverse (take_while isspace (reverse s)).
Proof.
  unfold rstrip. rewrite <- reverse_app, take_drop_while.
  by rewrite reverse_involutive.
Qed.

Lemma strip_stops_l s : stops isspace (strip s).
Proof.
  unfold strip. apply (stops_prefix _ _
    (reverse (take_while isspace (reverse (lstrip s))))).
  rewrite <- rstrip_rest. apply drop_while_stops.
Qed.

Lemma strip_stops_r s : stops isspace (reverse (strip s)).
Proof.
  unfold strip, rstrip. rewrite reverse_involutive. apply drop_while_stops.
Qed.

Lemma strip_Trimmed s : Trimmed s (strip s).
Proof.
  split; [apply strip_decompose|].
  split; [apply strip_stops_l|apply strip_stops_r].
Qed.

(** The trimmed form of a string is determined: it is what [strip]
    returns, and nothing else. *)
Lemma Trimmed_unique s col : Trimmed s col <-> col = strip s.
Proof.
  split; [|intros ->; apply strip_Trimmed].
  intros [(l & r & Hl & Hr & ->) [Hc Hrc]].
  destruct col as [|c col].
  - unfold strip, lstrip. cbn [app]. by rewrite drop_while_all by
      by apply Forall_app.
  - symmetry. by apply strip_core.
Qed.

Lemma Forall2_Trimmed pieces : Forall2 Trimmed pieces (map strip pieces).
Proof.
  induction pieces as [|p pieces IH]; constructor; [|done].
  apply strip_Trimmed.
Qed.

(** ** Index lines *)

Lemma split_without sep p : without sep p -> split sep p = [p].
Proof.
  induction 1 as [|c p Hc _ IH]; [done|]. simpl.
  unfold not_char in Hc. apply negb_true_iff in Hc. by rewrite Hc, IH.
Qed.

Lemma split_piece sep p s :
  without sep p -> split sep (p ++ sep :: s) = p :: split sep s.
Proof.
  induction 1 as [|c p Hc _ IH]; simpl.
  - by rewrite N.eqb_refl.
  - unfold not_char in Hc. apply negb_true_iff in Hc. by rewrite Hc, IH.
Qed.

(** Splitting undoes joining when no piece holds the separator. *)
Lemma split_join sep pieces :
  pieces <> [] -> Forall (without sep) pieces ->
  split sep (join [sep] pieces) = pieces.
Proof.
  intros Hne Hall. induction Hall as [|p rest Hp Hrest IH]; [done|].
  destruct rest as [|q rest].
  - simpl. by apply split_without.
  - change (join [sep] (p :: q :: rest))
      with (p ++ sep :: join [sep] (q :: rest)).
    rewrite split_piece by done. by rewrite IH.
Qed.

Lemma index_match `{UnicodeData} nm flag cols :
  nm <> [] -> without 0x3D nm ->
  flag <> [] -> Forall (fun c => isdecimal c = true) flag ->
  cols <> [] -> without NL cols ->
  re_match _INDEX_PATTERN (index_text nm flag cols) = Some [nm; flag; cols].
Proof.
  intros Hnm Hnm' Hflag Hflag' Hcols Hcols'.
  unfold re_match, _INDEX_PATTERN, index_text. cbn [seq_re].
  apply rmatch_cat, rmatch_lit.
  apply rmatch_cat, rmatch_group_plus_run; [done|done|exact eq_refl|].
  apply rmatch_cat, rmatch_lit.
  apply rmatch_cat, rmatch_group_plus_run; [done|done|exact eq_refl|].
  apply rmatch_cat, rmatch_lit.
  rewrite <- (app_nil_r cols).
  apply rmatch_group_plus_run; [done|done|done|].
  by rewrite app_nil_r.
Qed.

Lemma parse_index_line `{UnicodeData} line nm flag pieces :
  IndexLine line nm flag pieces ->
  A5erParser._parse_index line
  = Some {| TableIndex.name := nm;
            TableIndex.is_unique := str_eqb flag (u "1");
            TableIndex.columns := map strip pieces |}.
Proof.
  intros (-> & Hnm & Hnm' & Hflag & Hflag' & Hpieces & Hcols & Hnl).
  unfold A5erParser._parse_index. rewrite index_match by done.
  cbn [group nth pred]. do 3 f_equal.
  change (u ",") with [0x2C]. apply split_join; [|done]. by intros ->.
Qed.

(** C8: for every Index line, with name [nm], flag [flag] and column
    tokens [pieces], the line is accepted; the index's name is [nm], the
    text strictly between the leading Index= and the next equals sign;
    [is_unique] is true exactly when the flag is the string 1; and the
    columns are the comma-separated tokens, each trimmed of whitespace,
    in the order written: there is one column per token, the token is
    the column with nothing but whitespace before and after it, and the
    column itself neither starts nor ends with whitespace. *)
Theorem C8_index_line_decoded `{UnicodeData} line nm flag pieces :
  IndexLine line nm flag pieces ->
  exists idx,
    A5erParser._parse_index line = Some idx
    /\ TableIndex.name idx = nm
    /\ (TableIndex.is_unique idx = true <-> flag = u "1")
    /\ TableIndex.columns idx = map strip pieces
    /\ Forall2 Trimmed pieces (TableIndex.columns idx).
Proof.
  intros Hline. rewrite (parse_index_line _ _ _ _ Hline).
  eexists. split; [done|]. cbn [TableIndex.name TableIndex.is_unique
    TableIndex.columns].
  split; [done|]. split; [|split; [done|apply Forall2_Trimmed]].
  unfold str_eqb. by rewrite bool_decide_eq_true.
Qed.

Lemma IndexLine_spaced :
  @IndexLine ascii_only spaced_index (u "pk") (u "1") [u " id "; u "tenant"].
Proof.
  split; [reflexivity|]. repeat split; try done; by repeat constructor.
Qed.

Lemma IndexLine_sample :
  @IndexLine ascii_only sample_index (u "idx_name") (u "0") [u "name"].
Proof.
  split; [reflexivity|]. repeat split; try done; by repeat constructor.
Qed.

Lemma C8_witness :
  exists idx,
    @A5erParser._parse_index ascii_only spaced_index = Some idx
    /\ TableIndex.name idx = u "pk"
    /\ TableIndex.is_unique idx = true
    /\ Forall2 Trimmed [u " id "; u "tenant"] (TableIndex.columns idx)
    /\ TableIndex.columns idx = [u "id"; u "tenant"].
Proof.
  destruct (@C8_index_line_decoded ascii_only _ _ _ _ IndexLine_spaced)
    as (idx & Hidx & Hname & Huniq & Hcols & Htrim).
  exists idx. split; [exact Hidx|]. split; [exact Hname|].
  split; [apply Huniq; reflexivity|]. split; [exact Htrim|exact Hcols].
Defined.

(** ** Scalar lines of a section: the last one wins *)

Lemma startswith_compat s p q :
  startswith s p = true -> startswith s q = true ->
  startswith p q || startswith q p = true.
Proof.
  revert s q. induction p as [|c p IH]; intros s [|c' q]; simpl; try done.
  destruct s as [|d s]; [done|].
  intros [Hc Hp]%andb_true_iff [Hc' Hq]%andb_true_iff.
  apply N.eqb_eq in Hc as ->. apply N.eqb_eq in Hc' as ->.
  rewrite N.eqb_refl. simpl. by eapply IH.
Qed.

(** Two of the program's prefixes never start the same line. *)
Ltac excl :=
  match goal with
  | H1 : startswith ?s ?p = true, H2 : startswith ?s ?q = true |- _ =>
    let H := fresh in
    pose proof (startswith_compat s p q H1 H2) as H;
    vm_compute in H; discriminate H
  end.

Ltac other_prefix :=
  match goal with
  | |- context [startswith ?s ?q] =>
    let E := fresh "E" in
    destruct (startswith s q) eqn:E; [try excl | ]
  end.

Lemma default_last_cons {A} (a v : A) rest :
  default a (last (v :: rest)) = default v (last rest).
Proof.
  revert a v. induction rest as [|x rest IH]; intros a v; [done|].
  change (last (v :: x :: rest)) with (last (x :: rest)).
  by rewrite (IH a x), (IH v x).
Qed.

Lemma default_last_values p (a : str) l ls :
  default (default a (value_of p l)) (last (values_of p ls))
  = default a (last (values_of p (l :: ls))).
Proof.
  unfold values_of. cbn [omap list_omap].
  destruct (value_of p l) as [v|]; simpl; [|done].
  by rewrite default_last_cons.
Qed.

Section EntityLines.
Context `{UnicodeData}.
Import A5erParser.

Lemma entity_line_physical_name v l :
  physical_name (entity_line v l)
  = default (physical_name v) (value_of (u "PName=") l).
Proof.
  unfold entity_line, value_of.
  destruct (startswith (strip l) (u "PName=")) eqn:E1; [done|].
  repeat (other_prefix; try done).
  all: repeat case_match; done.
Qed.

Lemma entity_line_logical_name v l :
  logical_name (entity_line v l)
  = default (logical_name v) (value_of (u "LName=") l).
Proof.
  unfold entity_line, value_of.
  destruct (startswith (strip l) (u "PName=")) eqn:E1.
  { other_prefix. done. }
  destruct (startswith (strip l) (u "LName=")) eqn:E2; [done|].
  repeat (other_prefix; try done).
  all: repeat case_match; done.
Qed.

Lemma entity_line_page v l :
  page (entity_line v l) = default (page v) (value_of (u "Page=") l).
Proof.
  unfold entity_line, value_of.
  destruct (startswith (strip l) (u "PName=")) eqn:E1.
  { other_prefix. done. }
  destruct (startswith (strip l) (u "LName=")) eqn:E2.
  { other_prefix. done. }
  destruct (startswith (strip l) (u "Page=")) eqn:E3; [done|].
  repeat (other_prefix; try done).
  all: repeat case_match; done.
Qed.

Lemma entity_fold lines v :
  let v' := fold_left entity_line lines v in
  physical_name v'
  = default (physical_name v) (last (values_of (u "PName=") lines))
  /\ logical_name v'
     = default (logical_name v) (last (values_of (u "LName=") lines))
  /\ page v' = default (page v) (last (values_of (u "Page=") lines)).
Proof.
  revert v. induction lines as [|l lines IH]; intros v; [done|].
  cbn [fold_left]. destruct (IH (entity_line v l)) as (IH1 & IH2 & IH3).
  cbn zeta. rewrite IH1, IH2, IH3.
  rewrite entity_line_physical_name, entity_line_logical_name,
    entity_line_page.
  by rewrite !default_last_values.
Qed.

Lemma parse_table_spec lines :
  _parse_table lines
  = if truthy (last_value (u "PName=") lines) then
      Some {| Table.physical_name := last_value (u "PName=") lines;
              Table.logical_name := last_value (u "LName=") lines;
              Table.page := last_value (u "Page=") lines;
              Table.columns :=
                columns (fold_left entity_line lines entity_init);
              Table.indexes :=
                indexes (fold_left entity_line lines entity_init) |}
    else None.
Proof.
  unfold _parse_table, last_value.
  destruct (entity_fold lines entity_init) as (E1 & E2 & E3).
  cbn zeta in *. rewrite E1, E2, E3.
  cbn [physical_name logical_name page entity_init].
  by destruct (truthy _).
Qed.

End EntityLines.

Section RelationLines.
Import A5erParser ForeignKey.

Lemma relation_line_parent_table v l :
  parent_table (relation_line v l)
  = default (parent_table v) (value_of (u "Entity1=") l).
Proof.
  unfold relation_line, value_of.
  destruct (startswith (strip l) (u "Entity1=")) eqn:E1; [done|].
  repeat (other_prefix; try done).
Qed.

Lemma relation_line_child_table v l :
  child_table (relation_line v l)
  = default (child_table v) (value_of (u "Entity2=") l).
Proof.
  unfold relation_line, value_of.
  destruct (startswith (strip l) (u "Entity1=")) eqn:E1.
  { other_prefix. done. }
  destruct (startswith (strip l) (u "Entity2=")) eqn:E2; [done|].
  repeat (other_prefix; try done).
Qed.

Lemma relation_line_parent_column v l :
  parent_column (relation_line v l)
  = default (parent_column v) (value_of (u "Fields1=") l).
Proof.
  unfold relation_line, value_of.
  destruct (startswith (strip l) (u "Entity1=")) eqn:E1.
  { other_prefix. done. }
  destruct (startswith (strip l) (u "Entity2=")) eqn:E2.
  { other_prefix. done. }
  destruct (startswith (strip l) (u "Fields1=")) eqn:E3; [done|].
  repeat (other_prefix; try done).
Qed.

Lemma relation_line_child_column v l :
  child_column (relation_line v l)
  = default (child_column v) (value_of (u "Fields2=") l).
Proof.
  unfold relation_line, value_of.
  destruct (startswith (strip l) (u "Entity1=")) eqn:E1.
  { other_prefix. done. }
  destruct (startswith (strip l) (u "Entity2=")) eqn:E2.
  { other_prefix. done. }
  destruct (startswith (strip l) (u "Fields1=")) eqn:E3.
  { other_prefix. done. }
  destruct (startswith (strip l) (u "Fields2=")) eqn:E4; done.
Qed.

Lemma relation_fold lines v :
  fold_left relation_line lines v
  = {| parent_table :=
         default (parent_table v) (last (values_of (u "Entity1=") lines));
       child_table :=
         default (child_table v) (last (values_of (u "Entity2=") lines));
       parent_column :=
         default (parent_column v) (last (values_of (u "Fields1=") lines));
       child_column :=
         default (child_column v) (last (values_of (u "Fields2=") lines)) |}.
Proof.
  revert v. induction lines as [|l lines IH]; intros v; [by destruct v|].
  cbn [fold_left]. rewrite IH.
  rewrite relation_line_parent_table, relation_line_child_table,
    relation_line_parent_column, relation_line_child_column.
  by rewrite !default_last_values.
Qed.

Lemma parse_foreign_key_spec lines :
  _parse_foreign_key lines
  = if truthy (last_value (u "Entity1=") lines)
       && truthy (last_value (u "Entity2=") lines)
       && truthy (last_value (u "Fields1=") lines)
       && truthy (last_value (u "Fields2=") lines)
    then Some {| parent_table := last_value (u "Entity1=") lines;
                 child_table := last_value (u "Entity2=") lines;
                 parent_column := last_value (u "Fields1=") lines;
                 child_column := last_value (u "Fields2=") lines |}
    else None.
Proof.
  unfold _parse_foreign_key. rewrite relation_fold.
  cbn [parent_table child_table parent_column child_column relation_init].
  fold (last_value (u "Entity1=") lines) (last_value (u "Entity2=") lines)
       (last_value (u "Fields1=") lines) (last_value (u "Fields2=") lines).
  by destruct (_ && _).
Qed.

End RelationLines.

Lemma truthy_iff (s : str) : truthy s = true <-> s <> [].
Proof. by destruct s. Qed.

Lemma truthy_false_iff (s : str) : truthy s = false <-> s = [].
Proof. by destruct s. Qed.

Lemma missing_or_empty_iff p lines :
  missing_or_empty p lines <-> last_value p lines = [].
Proof.
  unfold missing_or_empty, last_value. split.
  - intros [-> | ->]; done.
  - destruct (values_of p lines) as [|v vs] eqn:E; [by left|].
    intros Hd. right. destruct (last (v :: vs)) as [x|] eqn:El.
    + by simpl in Hd; subst x.
    + by apply last_None in El.
Qed.

(** C10: within one section the last scalar line of a kind wins.  A table
    is emitted exactly when the value of the last PName= line is not
    empty, and it carries the values of the last PName=, LName= and Page=
    lines; a foreign key is emitted exactly when the values of the last
    Entity1=, Entity2=, Fields1= and Fields2= lines are all non-empty, and
    it carries these four values. *)
Theorem C10_last_scalar_line_wins `{UnicodeData} (lines : list str) :
  (is_Some (A5erParser._parse_table lines)
   <-> last_value (u "PName=") lines <> [])
  /\ (forall table, A5erParser._parse_table lines = Some table ->
        Table.physical_name table = last_value (u "PName=") lines
        /\ Table.logical_name table = last_value (u "LName=") lines
        /\ Table.page table = last_value (u "Page=") lines)
  /\ (is_Some (A5erParser._parse_foreign_key lines)
      <-> last_value (u "Entity1=") lines <> []
          /\ last_value (u "Entity2=") lines <> []
          /\ last_value (u "Fields1=") lines <> []
          /\ last_value (u "Fields2=") lines <> [])
  /\ (forall fk, A5erParser._parse_foreign_key lines = Some fk ->
        fk = {| ForeignKey.parent_table := last_value (u "Entity1=") lines;
                ForeignKey.child_table := last_value (u "Entity2=") lines;
                ForeignKey.parent_column := last_value (u "Fields1=") lines;
                ForeignKey.child_column := last_value (u "Fields2=") lines |}).
Proof.
  rewrite parse_table_spec, parse_foreign_key_spec.
  rewrite <- !truthy_iff.
  split; [|split; [|split]].
  - destruct (truthy _); split; intros Hs; try done; by destruct Hs.
  - intros table. destruct (truthy _); [|done]. by intros [= <-].
  - destruct (truthy (last_value (u "Entity1=") lines)),
      (truthy (last_value (u "Entity2=") lines)),
      (truthy (last_value (u "Fields1=") lines)),
      (truthy (last_value (u "Fields2=") lines)); simpl;
      split; intros Hs; try done; try (by destruct Hs);
      by destruct Hs as (? & ? & ? & ?).
  - intros fk. destruct (_ && _); [|done]. by intros [= <-].
Qed.

(** ** Whole documents *)

(** C1: parsing the sample input of the round-trip scenario yields
    exactly one table, users / User on page Main, with the columns id
    (primary key, not null) and name (neither) in this order and the one
    non-unique index idx_name over name, and exactly one foreign key from
    users.id to orders.user_id.  A final newline changes nothing. *)
Theorem C1_sample_document_parsed `{UnicodeData} :
  A5erParser.parse (A5erParser.__init__ sample_document)
  = ([sample_table], [sample_foreign_key])
  /\ A5erParser.parse (A5erParser.__init__ (sample_document ++ [NL]))
     = ([sample_table], [sample_foreign_key]).
Proof. split; by vm_compute. Qed.

Lemma parse_sections_skip `{UnicodeData} pre sec post :
  (forall acc, A5erParser.parse_section acc sec = acc) ->
  A5erParser.parse_sections (pre ++ sec :: post)
  = A5erParser.parse_sections (pre ++ post).
Proof.
  intros Hskip. unfold A5erParser.parse_sections.
  rewrite !fold_left_app. cbn [fold_left]. by rewrite Hskip.
Qed.

Lemma all_empty_last_value p lines :
  Forall (fun v => v = []) (values_of p lines) -> last_value p lines = [].
Proof.
  unfold last_value. intros Hall.
  destruct (last (values_of p lines)) as [v|] eqn:E; [|done].
  apply last_Some_elem_of in E. simpl.
  by eapply Forall_forall in Hall.
Qed.

(** C6: an Entity section none of whose PName= lines gives a non-empty
    value emits no table; the section leaves the result lists as they
    are, and the document parses to what its other sections give. *)
Theorem C6_entity_without_name_dropped `{UnicodeData}
        content pre sec post body :
  A5erParser._iter_sections (A5erParser.__init__ content)
  = pre ++ sec :: post ->
  SectionOf sec (u "[Entity]") body ->
  Forall (fun v => v = []) (values_of (u "PName=") body) ->
  A5erParser._parse_table body = None
  /\ (forall acc, A5erParser.parse_section acc sec = acc)
  /\ A5erParser.parse (A5erParser.__init__ content)
     = A5erParser.parse_sections (pre ++ post).
Proof.
  intros Hsecs (line0 & Hsplit & Hhead) Hnone.
  assert (Hnot : A5erParser._parse_table body = None).
  { rewrite parse_table_spec, all_empty_last_value; done. }
  assert (Hskip : forall acc, A5erParser.parse_section acc sec = acc).
  { intros acc. unfold A5erParser.parse_section.
    rewrite Hsplit, Hhead, Hnot. done. }
  split; [done|]. split; [done|].
  unfold A5erParser.parse. rewrite Hsecs. by apply parse_sections_skip.
Qed.

Lemma C6_witness :
  @A5erParser.parse ascii_only (A5erParser.__init__ nameless_entity_document)
  = ([users_only], []).
Proof.
  destruct (@C6_entity_without_name_dropped ascii_only
              nameless_entity_document []
              (join [NL] [u "[Entity]"; u "LName=Ghost"])
              [join [NL] [u "[Entity]"; u "PName=users"]]
              [u "LName=Ghost"]) as (_ & _ & Hparse).
  - reflexivity.
  - exists (u "[Entity]"). split; reflexivity.
  - vm_compute. constructor.
  - rewrite Hparse. reflexivity.
Defined.

(** C7: a Relation section in which one of Entity1, Entity2, Fields1,
    Fields2 is missing or has an empty value emits no foreign key; the
    section leaves the result lists as they are, and the document parses
    to what its other sections give.  Whenever a foreign key is emitted,
    none of the four is missing or empty. *)
Theorem C7_partial_relation_dropped `{UnicodeData}
        content pre sec post body :
  A5erParser._iter_sections (A5erParser.__init__ content)
  = pre ++ sec :: post ->
  SectionOf sec (u "[Relation]") body ->
  missing_or_empty (u "Entity1=") body \/ missing_or_empty (u "Entity2=") body
  \/ missing_or_empty (u "Fields1=") body
  \/ missing_or_empty (u "Fields2=") body ->
  A5erParser._parse_foreign_key body = None
  /\ (forall acc, A5erParser.parse_section acc sec = acc)
  /\ A5erParser.parse (A5erParser.__init__ content)
     = A5erParser.parse_sections (pre ++ post)
  /\ (forall lines, is_Some (A5erParser._parse_foreign_key lines) ->
        ~ missing_or_empty (u "Entity1=") lines
        /\ ~ missing_or_empty (u "Entity2=") lines
        /\ ~ missing_or_empty (u "Fields1=") lines
        /\ ~ missing_or_empty (u "Fields2=") lines).
Proof.
  intros Hsecs (line0 & Hsplit & Hhead) Hmiss.
  assert (Hnot : A5erParser._parse_foreign_key body = None).
  { rewrite parse_foreign_key_spec.
    rewrite !missing_or_empty_iff, <- !truthy_false_iff in Hmiss.
    destruct Hmiss as [-> | [-> | [-> | ->]]];
      by rewrite ?andb_false_r. }
  assert (Hskip : forall acc, A5erParser.parse_section acc sec = acc).
  { intros acc. unfold A5erParser.parse_section.
    rewrite Hsplit, Hhead, Hnot. done. }
  split; [done|]. split; [done|]. split.
  - unfold A5erParser.parse. rewrite Hsecs. by apply parse_sections_skip.
  - intros lines. rewrite !missing_or_empty_iff, parse_foreign_key_spec.
    rewrite <- !truthy_false_iff.
    destruct (truthy (last_value (u "Entity1=") lines)),
      (truthy (last_value (u "Entity2=") lines)),
      (truthy (last_value (u "Fields1=") lines)),
      (truthy (last_value (u "Fields2=") lines)); simpl;
      intros Hs; try (by destruct Hs); done.
Qed.

Lemma C7_witness :
  @A5erParser.parse ascii_only (A5erParser.__init__ partial_relation_document)
  = ([users_only], []).
Proof.
  destruct (@C7_partial_relation_dropped ascii_only
              partial_relation_document []
              (join [NL] [u "[Relation]"; u "Entity1=users";
                          u "Entity2=orders"; u "Fields1=id"])
              [join [NL] [u "[Entity]"; u "PName=users"]]
              [u "Entity1=users"; u "Entity2=orders"; u "Fields1=id"])
    as (_ & _ & Hparse & _).
  - reflexivity.
  - exists (u "[Relation]"). split; reflexivity.
  - right. right. right. left. reflexivity.
  - rewrite Hparse. reflexivity.
Defined.

(** ** The byte-order mark *)

(** The constructor removes exactly one leading mark. *)
Lemma init_marked s :
  A5erParser.__init__ (BOM :: s) = {| A5erParser._content := s |}.
Proof. done. Qed.

Lemma init_unmarked s :
  startswith s [BOM] = false ->
  A5erParser.__init__ s = {| A5erParser._content := s |}.
Proof. unfold A5erParser.__init__. by intros ->. Qed.

(** C5, as stated, fails on a text that itself starts with a mark: the
    text with one more mark in front keeps a mark before its first
    header and yields nothing, while the text itself yields a table. *)
Lemma C5_counterexample :
  @A5erParser.parse ascii_only (A5erParser.__init__ (BOM :: marked_document))
  = ([], [])
  /\ @A5erParser.parse ascii_only (A5erParser.__init__ marked_document)
     = ([users_only], []).
Proof. split; by vm_compute. Qed.

(** C5, amended: for every text that does not itself start with a
    byte-order mark, the text with one mark in front parses to exactly the
    tables and foreign keys of the text itself, which are those of the
    sections of the text with nothing removed. *)
Theorem C5_one_leading_mark_removed `{UnicodeData} (s : str) :
  startswith s [BOM] = false ->
  A5erParser.parse (A5erParser.__init__ (BOM :: s))
  = A5erParser.parse (A5erParser.__init__ s)
  /\ A5erParser.parse (A5erParser.__init__ (BOM :: s))
     = A5erParser.parse_sections (_SECTION_SPLIT_PATTERN_split s).
Proof.
  intros Hs. rewrite init_marked, init_unmarked by done. done.
Qed.

Lemma C5_witness :
  @A5erParser.parse ascii_only (A5erParser.__init__ (BOM :: sample_document))
  = @A5erParser.parse ascii_only (A5erParser.__init__ sample_document).
Proof.
  apply (@C5_one_leading_mark_removed ascii_only sample_document).
  reflexivity.
Defined.

(** ** The relation index *)

Section RelationIndexLemmas.
Import RelationIndex.
Implicit Types (d : gmap (list N) (list ForeignKey.t)) (fk : ForeignKey.t).

Lemma total_length_setdefault_append key fk d :
  total_length (setdefault_append key fk d) = S (total_length d).
Proof.
  unfold setdefault_append, total_length.
  destruct (d !! key) as [old|] eqn:Hkey; simpl.
  - rewrite <- insert_delete_eq.
    rewrite map_fold_insert_L; [|intros; lia|by rewrite lookup_delete_eq].
    rewrite (map_fold_delete_L _ _ key old d); [|intros; lia|done].
    rewrite length_app. simpl. lia.
  - rewrite map_fold_insert_L; [done|intros; lia|done].
Qed.

Lemma lookup_setdefault_append key fk d table_name :
  default [] (setdefault_append key fk d !! table_name)
  = default [] (d !! table_name)
    ++ (if decide (key = table_name) then [fk] else []).
Proof.
  unfold setdefault_append. destruct (decide (key = table_name)) as [->|Hne].
  - by rewrite lookup_insert_eq.
  - by rewrite lookup_insert_ne, app_nil_r.
Qed.

(** The index after the loop, from any starting index. *)
Lemma fold_add_outgoing fks self table_name :
  get_outgoing (fold_left add fks self) table_name
  = get_outgoing self table_name ++ with_child table_name fks.
Proof.
  revert self. induction fks as [|fk fks IH]; intros self.
  - by rewrite app_nil_r.
  - cbn [fold_left]. rewrite IH. unfold get_outgoing, add, with_child.
    cbn [_outgoing]. rewrite lookup_setdefault_append, <- app_assoc.
    f_equal. destruct (decide (ForeignKey.child_table fk = table_name)).
    + by rewrite filter_cons_True.
    + by rewrite filter_cons_False.
Qed.

Lemma fold_add_incoming fks self table_name :
  get_incoming (fold_left add fks self) table_name
  = get_incoming self table_name ++ with_parent table_name fks.
Proof.
  revert self. induction fks as [|fk fks IH]; intros self.
  - by rewrite app_nil_r.
  - cbn [fold_left]. rewrite IH. unfold get_incoming, add, with_parent.
    cbn [_incoming]. rewrite lookup_setdefault_append, <- app_assoc.
    f_equal. destruct (decide (ForeignKey.parent_table fk = table_name)).
    + by rewrite filter_cons_True.
    + by rewrite filter_cons_False.
Qed.

Lemma fold_add_total fks self :
  total_length (_outgoing (fold_left add fks self))
  = (total_length (_outgoing self) + length fks)%nat
  /\ total_length (_incoming (fold_left add fks self))
     = (total_length (_incoming self) + length fks)%nat.
Proof.
  revert self. induction fks as [|fk fks IH]; intros self.
  - simpl. lia.
  - cbn [fold_left]. destruct (IH (add self fk)) as [-> ->].
    unfold add. cbn [_outgoing _incoming].
    rewrite !total_length_setdefault_append. simpl. lia.
Qed.

End RelationIndexLemmas.

Lemma filter_none {A} (P : A -> Prop) `{forall x, Decision (P x)} l :
  Forall (fun x => ~ P x) l -> filter P l = [].
Proof.
  induction 1 as [|x l Hx _ IH]; [done|]. by rewrite filter_cons_False.
Qed.

(** C4: for every list of foreign keys, in the index built from it the
    outgoing list of a table is the foreign keys whose child table it is,
    in input order, and the incoming list is those whose parent table it
    is, in input order: so each foreign key is in the outgoing list of its
    child table and of no other table, and in the incoming list of its
    parent table and of no other; the lengths of all outgoing lists add up
    to the number of foreign keys, and so do those of all incoming lists;
    and a table named by no foreign key gets the empty list from both
    lookups. *)
Theorem C4_relation_index_groups (fks : list ForeignKey.t) :
  let index := RelationIndex.__init__ fks in
  (forall table_name,
      RelationIndex.get_outgoing index table_name = with_child table_name fks)
  /\ (forall table_name,
        RelationIndex.get_incoming index table_name
        = with_parent table_name fks)
  /\ (forall fk table_name,
        fk ∈ RelationIndex.get_outgoing index table_name
        <-> fk ∈ fks /\ ForeignKey.child_table fk = table_name)
  /\ (forall fk table_name,
        fk ∈ RelationIndex.get_incoming index table_name
        <-> fk ∈ fks /\ ForeignKey.parent_table fk = table_name)
  /\ total_length (RelationIndex._outgoing index) = length fks
  /\ total_length (RelationIndex._incoming index) = length fks
  /\ (forall table_name,
        Forall (fun fk => ForeignKey.child_table fk <> table_name
                          /\ ForeignKey.parent_table fk <> table_name) fks ->
        RelationIndex.get_outgoing index table_name = []
        /\ RelationIndex.get_incoming index table_name = []).
Proof.
  cbn zeta. unfold RelationIndex.__init__.
  assert (Hout : forall table_name,
    RelationIndex.get_outgoing
      (fold_left RelationIndex.add fks
         {| RelationIndex._outgoing := ∅; RelationIndex._incoming := ∅ |})
      table_name = with_child table_name fks).
  { intros t. by rewrite fold_add_outgoing. }
  assert (Hin : forall table_name,
    RelationIndex.get_incoming
      (fold_left RelationIndex.add fks
         {| RelationIndex._outgoing := ∅; RelationIndex._incoming := ∅ |})
      table_name = with_parent table_name fks).
  { intros t. by rewrite fold_add_incoming. }
  split; [done|]. split; [done|]. split; [|split].
  - intros fk t. rewrite Hout. unfold with_child.
    by rewrite list_elem_of_filter, (comm and).
  - intros fk t. rewrite Hin. unfold with_parent.
    by rewrite list_elem_of_filter, (comm and).
  - destruct (fold_add_total fks
      {| RelationIndex._outgoing := ∅; RelationIndex._incoming := ∅ |})
      as [-> ->].
    cbn [RelationIndex._outgoing RelationIndex._incoming].
    unfold total_length. rewrite map_fold_empty.
    split; [done|]. split; [done|].
    intros t Hall. rewrite Hout, Hin. unfold with_child, with_parent.
    split; apply filter_none; eapply Forall_impl; try exact Hall;
      by intros fk [? ?].
Qed.

(** ** The renderer *)

Section RendererLemmas.
Import MarkdownGenerator.

Lemma fold_write {A} (g : list N -> A -> list N) (f : A -> list N) l buf :
  (forall b x, g b x = b ++ f x) ->
  fold_left g l buf = buf ++ concat (map f l).
Proof.
  intros Hg. revert buf. induction l as [|x l IH]; intros buf.
  - by rewrite app_nil_r.
  - cbn [fold_left map concat]. by rewrite IH, Hg, <- app_assoc.
Qed.

Lemma label_in_Labelled table_map table_name :
  Labelled table_map table_name (label_in table_map table_name).
Proof.
  unfold Labelled, label_in.
  destruct (table_map !! table_name) as [tb|]; [right|left]; eauto.
Qed.

Lemma fold_block (g : list N -> ForeignKey.t -> list N) f title fks buf :
  (forall b x, g b x = b ++ f x) ->
  (if nonempty fks
   then write (fold_left g fks (write buf (title ++ [NL; NL]))) [NL]
   else buf)
  = buf ++ block title (map f fks).
Proof.
  intros Hg. destruct fks as [|fk fks].
  - by rewrite app_nil_r.
  - cbn [nonempty]. rewrite (fold_write g f) by done. unfold write, block.
    cbn [map]. by rewrite <- !app_assoc.
Qed.

Lemma table_map_init tables index table_name :
  _table_map (__init__ tables index) !! table_name
  = table_named tables table_name.
Proof.
  unfold __init__, table_named. cbn [_table_map].
  induction tables as [|tb tables IH] using rev_ind; [done|].
  rewrite fold_left_app, filter_app, last_app. cbn [fold_left].
  destruct (decide (Table.physical_name tb = table_name)) as [E|E].
  - rewrite filter_cons_True by done. subst table_name.
    by rewrite lookup_insert_eq.
  - rewrite filter_cons_False by done.
    by rewrite lookup_insert_ne, IH.
Qed.

End RendererLemmas.

Lemma write_table_spec self buf table :
  MarkdownGenerator._write_table self buf table
  = buf ++ table_head table
    ++ block (u "#### 参照するテーブル (外部キー)")
         (map (fun fk =>
                 outgoing_item
                   (label_in (MarkdownGenerator._table_map self)
                             (ForeignKey.parent_table fk)) fk)
              (RelationIndex.get_outgoing
                 (MarkdownGenerator._relation_index self)
                 (Table.physical_name table)))
    ++ block (u "#### 参照されるテーブル")
         (map (fun fk =>
                 incoming_item
                   (label_in (MarkdownGenerator._table_map self)
                             (ForeignKey.child_table fk)) fk)
              (RelationIndex.get_incoming
                 (MarkdownGenerator._relation_index self)
                 (Table.physical_name table)))
    ++ u "---" ++ [NL; NL].
Proof.
  unfold MarkdownGenerator._write_table. cbn zeta.
  rewrite (fold_block (MarkdownGenerator.write_incoming self)
             (fun fk => incoming_item
                          (label_in (MarkdownGenerator._table_map self)
                                    (ForeignKey.child_table fk)) fk))
    by (intros b fk; unfold MarkdownGenerator.write_incoming,
          MarkdownGenerator.write, incoming_item, label_in; done).
  rewrite (fold_block (MarkdownGenerator.write_outgoing self)
             (fun fk => outgoing_item
                          (label_in (MarkdownGenerator._table_map self)
                                    (ForeignKey.parent_table fk)) fk))
    by (intros b fk; unfold MarkdownGenerator.write_outgoing,
          MarkdownGenerator.write, outgoing_item, label_in; done).
  assert (Hidx : forall b,
    (if MarkdownGenerator.nonempty (Table.indexes table)
     then MarkdownGenerator.write
            (fold_left MarkdownGenerator.write_index (Table.indexes table)
               (MarkdownGenerator.write b (u "#### インデックス" ++ [NL; NL])))
            [NL]
     else b)
    = b ++ block (u "#### インデックス") (map index_item (Table.indexes table))).
  { intros b. destruct (Table.indexes table) as [|idx idxs].
    - by rewrite app_nil_r.
    - cbn [MarkdownGenerator.nonempty].
      rewrite (fold_write MarkdownGenerator.write_index index_item)
        by (intros; unfold MarkdownGenerator.write_index,
              MarkdownGenerator.write, index_item;
            by rewrite <- ?app_assoc).
      unfold MarkdownGenerator.write, block. cbn [map].
      by rewrite <- ?app_assoc. }
  rewrite Hidx.
  rewrite (fold_write MarkdownGenerator.write_column column_row)
    by (intros; unfold MarkdownGenerator.write_column,
          MarkdownGenerator.write, column_row; by rewrite <- ?app_assoc).
  unfold MarkdownGenerator.write, table_head.
  by rewrite <- ?app_assoc.
Qed.

(** C9: for every table the renderer writes, in any buffer, the text is
    the head of the table, the list of its outgoing foreign keys, the
    list of its incoming ones and the separator, and rendering always
    completes.  Every foreign key of the outgoing (incoming) list has one
    item, in order, whose label for the parent (child) table is the bare
    table name when the table map has no table of that name, and the name
    followed by the table's logical name in parentheses when it has.  The
    table map of a generator holds, for a name, the last table of that
    name it was built from. *)
Theorem C9_dangling_reference_bare_name
        (self : MarkdownGenerator.t) (buf : str) (table : Table.t) :
  exists out_items in_items,
    MarkdownGenerator._write_table self buf table
    = buf ++ table_head table
      ++ block (u "#### 参照するテーブル (外部キー)") out_items
      ++ block (u "#### 参照されるテーブル") in_items
      ++ u "---" ++ [NL; NL]
    /\ Forall2
         (fun fk item =>
            exists label,
              Labelled (MarkdownGenerator._table_map self)
                       (ForeignKey.parent_table fk) label
              /\ item = outgoing_item label fk)
         (RelationIndex.get_outgoing (MarkdownGenerator._relation_index self)
                                     (Table.physical_name table))
         out_items
    /\ Forall2
         (fun fk item =>
            exists label,
              Labelled (MarkdownGenerator._table_map self)
                       (ForeignKey.child_table fk) label
              /\ item = incoming_item label fk)
         (RelationIndex.get_incoming (MarkdownGenerator._relation_index self)
                                     (Table.physical_name table))
         in_items
    /\ (forall tables index table_name,
          MarkdownGenerator._table_map
            (MarkdownGenerator.__init__ tables index) !! table_name
          = table_named tables table_name).
Proof.
  eexists _, _. split; [apply write_table_spec|].
  split; [|split].
  - apply Forall2_fmap_r, Forall_Forall2_diag, Forall_forall.
    intros fk _. eexists. split; [apply label_in_Labelled|done].
  - apply Forall2_fmap_r, Forall_Forall2_diag, Forall_forall.
    intros fk _. eexists. split; [apply label_in_Labelled|done].
  - apply table_map_init.
Qed.

(** ** The lines the patterns accept

    The converse of the acceptance lemmas: a match, read backwards,
    cuts the line into the pieces of a Field or Index line. *)

Section MatcherInversion.
Context {A : Type}.
Implicit Types (s l : list N) (caps : list (list N)) (f : N -> bool)
         (k : list N -> list (list N) -> option A) (res : A).

Lemma star_inv f s (k1 : list N -> option A) res :
  star f s k1 = Some res ->
  exists run rest,
    s = run ++ rest /\ Forall (fun c => f c = true) run
    /\ k1 rest = Some res.
Proof.
  induction s as [|c s IH]; simpl.
  - intros Hk. by exists [], [].
  - destruct (f c) eqn:Hc.
    + destruct (star f s k1) as [res'|] eqn:Hs.
      * intros [= ->]. destruct (IH eq_refl) as (run & rest & -> & Hrun & Hk).
        exists (c :: run), rest. by repeat split; [constructor|].
      * intros Hk. by exists [], (c :: s).
    + intros Hk. by exists [], (c :: s).
Qed.

Lemma cat_lit_inv l r2 s caps k res :
  rmatch (Cat (Lit l) r2) s caps k = Some res ->
  exists s', s = l ++ s' /\ rmatch r2 s' caps k = Some res.
Proof.
  cbn [rmatch]. destruct (startswith s l) eqn:Hs; [|done].
  intros Hk. exists (drop (length l) s). split; [|done].
  by apply startswith_inv.
Qed.

Lemma cat_star_inv f r2 s caps k res :
  rmatch (Cat (Star f) r2) s caps k = Some res ->
  exists run rest,
    s = run ++ rest /\ Forall (fun c => f c = true) run
    /\ rmatch r2 rest caps k = Some res.
Proof. cbn [rmatch]. apply star_inv. Qed.

Lemma cat_group_star_inv f r2 s caps k res :
  rmatch (Cat (Group (Star f)) r2) s caps k = Some res ->
  exists run rest,
    s = run ++ rest /\ Forall (fun c => f c = true) run
    /\ rmatch r2 rest (caps ++ [run]) k = Some res.
Proof.
  cbn [rmatch]. intros (run & rest & -> & Hrun & Hk)%star_inv.
  exists run, rest. repeat split; [done|].
  rewrite length_app in Hk.
  replace (length run + length rest - length rest)%nat
    with (length run) in Hk by lia.
  by rewrite take_app_length in Hk.
Qed.

Lemma cat_group_plus_inv f r2 s caps k res :
  rmatch (Cat (Group (Plus f)) r2) s caps k = Some res ->
  exists run rest,
    s = run ++ rest /\ run <> [] /\ Forall (fun c => f c = true) run
    /\ rmatch r2 rest (caps ++ [run]) k = Some res.
Proof.
  cbn [rmatch]. destruct s as [|c s]; [done|].
  destruct (f c) eqn:Hc; [|done].
  intros (run & rest & -> & Hrun & Hk)%star_inv.
  exists (c :: run), rest. repeat split; [done|by constructor|].
  cbn [length] in Hk. rewrite length_app in Hk.
  replace (S (length run + length rest) - length rest)%nat
    with (length (c :: run)) in Hk by (simpl; lia).
  change (c :: run ++ rest) with ((c :: run) ++ rest) in Hk.
  by rewrite take_app_length in Hk.
Qed.

End MatcherInversion.

Lemma star_total {A} f s (k1 : list N -> option A) :
  (forall s', is_Some (k1 s')) -> star f s k1 = k1 (drop_while f s).
Proof.
  intros Hk. induction s as [|c s IH]; simpl; [done|].
  destruct (f c); [|done]. rewrite IH.
  by destruct (Hk (drop_while f s)) as [res ->].
Qed.

Lemma last_group_star f s caps :
  rmatch (Group (Star f)) s caps (fun _ caps' => Some caps')
  = Some (caps ++ [take_while f s]).
Proof.
  cbn [rmatch]. rewrite star_total by (intros; eauto).
  by rewrite take_length_while.
Qed.

Lemma last_group_plus_inv f s caps m :
  rmatch (Group (Plus f)) s caps (fun _ caps' => Some caps') = Some m ->
  s <> [] /\ m = caps ++ [take_while f s].
Proof.
  cbn [rmatch]. destruct s as [|c s]; [done|].
  destruct (f c) eqn:Hc; [|done].
  rewrite star_total by (intros; eauto). intros [= <-]. split; [done|].
  pose proof (take_length_while f (c :: s)) as E. simpl in E.
  rewrite Hc in E. cbn [length]. rewrite E. simpl. by rewrite Hc.
Qed.

(** Every line the Field pattern accepts is a Field line. *)
Lemma field_match_inv line m :
  re_match _FIELD_PATTERN line = Some m ->
  exists a b c d tok, FieldLine line a b c d tok.
Proof.
  unfold re_match, _FIELD_PATTERN. cbn [seq_re]. intros Hm.
  apply cat_lit_inv in Hm as (s0 & -> & Hm).
  apply cat_group_star_inv in Hm as (a & s1 & -> & Ha & Hm).
  apply cat_lit_inv in Hm as (s2 & -> & Hm).
  apply cat_star_inv in Hm as (w1 & s3 & -> & Hw1 & Hm).
  apply cat_lit_inv in Hm as (s4 & -> & Hm).
  apply cat_group_star_inv in Hm as (b & s5 & -> & Hb & Hm).
  apply cat_lit_inv in Hm as (s6 & -> & Hm).
  apply cat_star_inv in Hm as (w2 & s7 & -> & Hw2 & Hm).
  apply cat_lit_inv in Hm as (s8 & -> & Hm).
  apply cat_group_star_inv in Hm as (c & s9 & -> & Hc & Hm).
  apply cat_lit_inv in Hm as (s10 & -> & Hm).
  apply cat_star_inv in Hm as (w3 & s11 & -> & Hw3 & Hm).
  apply cat_lit_inv in Hm as (s12 & -> & Hm).
  apply cat_group_star_inv in Hm as (d & s13 & -> & Hd & Hm).
  apply cat_lit_inv in Hm as (s14 & -> & Hm).
  apply cat_star_inv in Hm as (w4 & s15 & -> & Hw4 & Hm).
  clear Hm. exists a, b, c, d, (take_while (not_char 0x2C) s15).
  exists w1, w2, w3, w4, (drop_while (not_char 0x2C) s15).
  split; [by unfold field_text; rewrite take_drop_while|].
  repeat split; try done.
  - apply take_while_Forall.
  - apply drop_while_stops.
Qed.

(** X8: the Field lines are exactly the lines [_parse_column] accepts. *)
Lemma parse_column_accepts `{UnicodeData} line :
  is_Some (A5erParser._parse_column line)
  <-> exists a b c d tok, FieldLine line a b c d tok.
Proof.
  split.
  - unfold A5erParser._parse_column.
    destruct (re_match _FIELD_PATTERN line) as [m|] eqn:Hm.
    + intros _. by eapply field_match_inv.
    + by intros [? ?].
  - intros (a & b & c & d & tok & Hline).
    by rewrite (parse_column_field _ _ _ _ _ _ Hline).
Qed.

Lemma join_split sep s : join [sep] (split sep s) = s.
Proof.
  induction s as [|c s IH]; [done|]. simpl.
  destruct (c =? sep) eqn:Hc.
  - apply N.eqb_eq in Hc as ->.
    destruct (split sep s) as [|p ps] eqn:Hs; [by destruct s|].
    change (join [sep] ([] :: p :: ps)) with (sep :: join [sep] (p :: ps)).
    by rewrite IH.
  - destruct (split sep s) as [|p ps] eqn:Hs.
    + destruct s as [|c' s]; [done|]. simpl in Hs.
      destruct (c' =? sep); [done|]. by destruct (split sep s).
    + destruct ps as [|q ps]; simpl in *; by rewrite <- IH.
Qed.

Lemma split_pieces_without sep s : Forall (without sep) (split sep s).
Proof.
  induction s as [|c s IH]; simpl; [by repeat constructor|].
  destruct (c =? sep) eqn:Hc; [by constructor; [constructor|]|].
  assert (Hc' : not_char sep c = true) by (unfold not_char; by rewrite Hc).
  destruct (split sep s) as [|p ps]; [by repeat constructor|].
  apply Forall_cons in IH as [Hp Hps]. constructor; [|done].
  by constructor.
Qed.

(** X10: the Index lines are exactly the lines without a newline that
    [_parse_index] accepts. *)
Lemma parse_index_accepts `{UnicodeData} line :
  without NL line ->
  is_Some (A5erParser._parse_index line)
  <-> exists nm flag pieces, IndexLine line nm flag pieces.
Proof.
  intros Hnl. split.
  - unfold A5erParser._parse_index.
    destruct (re_match _INDEX_PATTERN line) as [m|] eqn:Hm;
      [intros _|by intros [? ?]].
    unfold re_match, _INDEX_PATTERN in Hm. cbn [seq_re] in Hm.
    apply cat_lit_inv in Hm as (s0 & -> & Hm).
    apply cat_group_plus_inv in Hm as (nm & s1 & -> & Hnm & Hnm' & Hm).
    apply cat_lit_inv in Hm as (s2 & -> & Hm).
    apply cat_group_plus_inv in Hm as (flag & s3 & -> & Hflag & Hflag' & Hm).
    apply cat_lit_inv in Hm as (cols & -> & Hm).
    apply last_group_plus_inv in Hm as [Hcols _].
    exists nm, flag, (split 0x2C cols).
    change (u ",") with [0x2C]. unfold IndexLine.
    change (u ",") with [0x2C]. rewrite join_split.
    repeat split; try done.
    + apply split_pieces_without.
    + unfold without in *. rewrite !Forall_app in Hnl. tauto.
  - intros (nm & flag & pieces & Hline).
    by rewrite (parse_index_line _ _ _ _ Hline).
Qed.

(** The renderer on the round-trip scenario. *)
Example render_sample_table :
  MarkdownGenerator._write_table
    (MarkdownGenerator.__init__ [sample_table]
       (RelationIndex.__init__ [sample_foreign_key]))
    [] sample_table
  = sample_rendering.
Proof. by vm_compute. Qed.

(** With users in the table map, the reference from orders shows the
    logical name of users in parentheses. *)
Example render_orders_table :
  MarkdownGenerator._write_table
    (MarkdownGenerator.__init__ [sample_table; orders_table]
       (RelationIndex.__init__ [sample_foreign_key]))
    [] orders_table
  = orders_rendering.
Proof. by vm_compute. Qed.

(** ** The primitives on small inputs *)

Example utf8_decode_arrow : u "→✓" = [0x2192; 0x2713].
Proof. reflexivity. Qed.

Example strip_both_sides :
  strip ([0x3000; 0x20] ++ u "a b" ++ [0x09; 0x0D; NL]) = u "a b".
Proof. reflexivity. Qed.

Example strip_keeps_mark : strip (BOM :: u " x ") = BOM :: u " x".
Proof. reflexivity. Qed.

Example split_commas : split 0x2C (u "a,,b,") = [u "a"; []; u "b"; []].
Proof. reflexivity. Qed.

Example split_empty : split NL [] = [[]].
Proof. reflexivity. Qed.

Example section_split_at_brackets :
  _SECTION_SPLIT_PATTERN_split
    (u "x" ++ [NL] ++ u "[A]" ++ [NL] ++ u "y" ++ [NL; NL] ++ u "[B]")
  = [u "x"; u "[A]" ++ [NL] ++ u "y" ++ [NL]; u "[B]"].
Proof. reflexivity. Qed.

Example field_line_with_spaces_and_tail `{UnicodeData} :
  A5erParser._parse_column
    (field_text (u "A") (u " ") (u "b") [] [] [0x09] (u "x Not Null y")
                (u "  ") (u "0 ") (u ",rest"))
  = Some {| Column.logical_name := u "A"; Column.physical_name := u "b";
            Column.data_type := []; Column.not_null := true;
            Column.is_pk := true |}.
Proof. by vm_compute. Qed.

Example field_line_unclosed_quote `{UnicodeData} :
  A5erParser._parse_column (u "Field=" ++ [DQUOTE] ++ u "A,b,c,d,0") = None.
Proof. by vm_compute. Qed.

Example index_line_unique_two_columns `{UnicodeData} :
  A5erParser._parse_index (u "Index=pk=1, id ,tenant")
  = Some {| TableIndex.name := u "pk"; TableIndex.is_unique := true;
            TableIndex.columns := [u "id"; u "tenant"] |}.
Proof. by vm_compute. Qed.

Example index_line_flag_not_digits `{UnicodeData} :
  A5erParser._parse_index (u "Index=pk=yes,id") = None.
Proof. by vm_compute. Qed.

Example last_name_wins `{UnicodeData} :
  A5erParser._parse_table [u "PName=a"; u " PName=b=c "; u "LName=x"]
  = Some {| Table.physical_name := u "b=c"; Table.logical_name := u "x";
            Table.page := []; Table.columns := []; Table.indexes := [] |}.
Proof. by vm_compute. Qed.

Example name_reset_to_empty `{UnicodeData} :
  A5erParser._parse_table [u "PName=a"; u "PName="] = None.
Proof. by vm_compute. Qed.

(** Outside ASCII the upper-case form of one character may be several:
    the N that upper-casing U+0149 produces can start a NOT NULL. *)
Example not_null_by_expansion :
  @A5erParser._parse_column apostrophe_n
    (field_text [] [] [] [] [] [] (0x149 :: u "ot null") [] (u "1") [])
  = Some {| Column.logical_name := []; Column.physical_name := [];
            Column.data_type := []; Column.not_null := true;
            Column.is_pk := false |}.
Proof. by vm_compute. Qed.

(** * Further properties of the program *)

(** ** The columns and indexes of a table *)

Lemma parse_column_prefix `{UnicodeData} line col :
  A5erParser._parse_column line = Some col ->
  startswith line (u "Field=") = true.
Proof.
  unfold A5erParser._parse_column.
  destruct (re_match _FIELD_PATTERN line) as [m|] eqn:Hm; [|done].
  intros _. unfold re_match, _FIELD_PATTERN in Hm. cbn [seq_re] in Hm.
  apply cat_lit_inv in Hm as (s0 & -> & _).
  rewrite <- app_assoc. apply startswith_app.
Qed.

Lemma parse_index_prefix `{UnicodeData} line idx :
  A5erParser._parse_index line = Some idx ->
  startswith line (u "Index=") = true.
Proof.
  unfold A5erParser._parse_index.
  destruct (re_match _INDEX_PATTERN line) as [m|] eqn:Hm; [|done].
  intros _. unfold re_match, _INDEX_PATTERN in Hm. cbn [seq_re] in Hm.
  apply cat_lit_inv in Hm as (s0 & -> & _). apply startswith_app.
Qed.

Section EntityRows.
Context `{UnicodeData}.
Import A5erParser.

(** A line is tried against one pattern only, the one of its prefix, but
    since each pattern starts with its prefix this loses nothing. *)
Lemma entity_line_columns v l :
  columns (entity_line v l)
  = columns v ++ option_list (_parse_column (strip l)).
Proof.
  unfold entity_line.
  destruct (_parse_column (strip l)) as [col|] eqn:Hcol.
  - pose proof (parse_column_prefix _ _ Hcol) as Hp.
    repeat (other_prefix; try done).
  - repeat (other_prefix; try (by rewrite app_nil_r)).
    all: repeat case_match; by rewrite ?app_nil_r.
Qed.

Lemma entity_line_indexes v l :
  indexes (entity_line v l)
  = indexes v ++ option_list (_parse_index (strip l)).
Proof.
  unfold entity_line.
  destruct (_parse_index (strip l)) as [idx|] eqn:Hidx.
  - pose proof (parse_index_prefix _ _ Hidx) as Hp.
    repeat (other_prefix; try done).
  - repeat (other_prefix; try (by rewrite app_nil_r)).
    all: repeat case_match; by rewrite ?app_nil_r.
Qed.

Lemma entity_fold_rows lines v :
  columns (fold_left entity_line lines v)
  = columns v ++ omap (fun l => _parse_column (strip l)) lines
  /\ indexes (fold_left entity_line lines v)
     = indexes v ++ omap (fun l => _parse_index (strip l)) lines.
Proof.
  revert v. induction lines as [|l lines IH]; intros v.
  - by rewrite !app_nil_r.
  - cbn [fold_left]. destruct (IH (entity_line v l)) as [-> ->].
    rewrite entity_line_columns, entity_line_indexes, <- !app_assoc.
    cbn [omap list_omap].
    by destruct (_parse_column (strip l)), (_parse_index (strip l)).
Qed.

End EntityRows.

Lemma parse_table_rows `{UnicodeData} (lines : list str) :
  A5erParser._parse_table lines
  = if truthy (last_value (u "PName=") lines) then
      Some {| Table.physical_name := last_value (u "PName=") lines;
              Table.logical_name := last_value (u "LName=") lines;
              Table.page := last_value (u "Page=") lines;
              Table.columns :=
                omap (fun l => A5erParser._parse_column (strip l)) lines;
              Table.indexes :=
                omap (fun l => A5erParser._parse_index (strip l)) lines |}
    else None.
Proof.
  rewrite parse_table_spec.
  by destruct (entity_fold_rows lines A5erParser.entity_init) as [-> ->].
Qed.

(** X5: a table carries the last scalar values, and as columns and indexes
    what the Field and Index patterns accept among the trimmed lines, in
    the order of the lines; every other line is skipped. *)
Theorem parse_table_decoded `{UnicodeData} (lines : list str) :
  A5erParser._parse_table lines
  = if truthy (last_value (u "PName=") lines) then
      Some {| Table.physical_name := last_value (u "PName=") lines;
              Table.logical_name := last_value (u "LName=") lines;
              Table.page := last_value (u "Page=") lines;
              Table.columns :=
                omap (fun l => A5erParser._parse_column (strip l)) lines;
              Table.indexes :=
                omap (fun l => A5erParser._parse_index (strip l)) lines |}
    else None.
Proof. apply parse_table_rows. Qed.

(** ** Whitespace around lines and values *)

Lemma strip_idemp s : strip (strip s) = strip s.
Proof.
  destruct (strip s) as [|c r] eqn:E; [done|]. rewrite <- E.
  rewrite <- (app_nil_r (strip s)) at 1.
  apply (strip_core [] (strip s) []); try done.
  - by rewrite E.
  - apply strip_stops_l.
  - apply strip_stops_r.
Qed.

Lemma entity_fold_strip `{UnicodeData} lines v :
  fold_left A5erParser.entity_line (map strip lines) v
  = fold_left A5erParser.entity_line lines v.
Proof.
  revert v. induction lines as [|l lines IH]; intros v; [done|].
  cbn [map fold_left]. rewrite IH. f_equal.
  unfold A5erParser.entity_line. by rewrite strip_idemp.
Qed.

Lemma relation_fold_strip lines v :
  fold_left A5erParser.relation_line (map strip lines) v
  = fold_left A5erParser.relation_line lines v.
Proof.
  revert v. induction lines as [|l lines IH]; intros v; [done|].
  cbn [map fold_left]. rewrite IH. f_equal.
  unfold A5erParser.relation_line. by rewrite strip_idemp.
Qed.

(** X6: only the trimmed line counts: indentation, trailing blanks and the
    carriage returns of a CRLF file change nothing. *)
Theorem body_lines_trimmed `{UnicodeData} (lines : list str) :
  A5erParser._parse_table (map strip lines) = A5erParser._parse_table lines
  /\ A5erParser._parse_foreign_key (map strip lines)
     = A5erParser._parse_foreign_key lines.
Proof.
  unfold A5erParser._parse_table, A5erParser._parse_foreign_key.
  by rewrite entity_fold_strip, relation_fold_strip.
Qed.

Lemma value_of_trimmed p l v :
  value_of p l = Some v -> stops isspace (reverse v).
Proof.
  unfold value_of. destruct (startswith (strip l) p); [|done].
  intros [= <-].
  apply (stops_prefix _ _ (reverse (take (length p) (strip l)))).
  rewrite <- reverse_app, take_drop. apply strip_stops_r.
Qed.

Lemma last_value_trimmed p lines : stops isspace (reverse (last_value p lines)).
Proof.
  unfold last_value.
  destruct (last (values_of p lines)) as [v|] eqn:E; [|done].
  apply last_Some_elem_of in E. unfold values_of in E.
  apply list_elem_of_omap in E as (l & _ & Hv).
  by eapply value_of_trimmed.
Qed.

(** X7: the physical name, the logical name and the page of an emitted
    table and the four values of an emitted foreign key never end with
    whitespace, and the physical name and the four values are never
    empty.  (The strings of columns and indexes are groups of the
    patterns, copied as they are; they are not meant here.) *)
Theorem emitted_values_trimmed `{UnicodeData} (lines : list str) :
  (forall table, A5erParser._parse_table lines = Some table ->
     Table.physical_name table <> []
     /\ stops isspace (reverse (Table.physical_name table))
     /\ stops isspace (reverse (Table.logical_name table))
     /\ stops isspace (reverse (Table.page table)))
  /\ (forall fk, A5erParser._parse_foreign_key lines = Some fk ->
        Forall (fun v => v <> [] /\ stops isspace (reverse v))
               [ForeignKey.parent_table fk; ForeignKey.child_table fk;
                ForeignKey.parent_column fk; ForeignKey.child_column fk]).
Proof.
  split.
  - intros table. rewrite parse_table_rows.
    destruct (truthy _) eqn:Ht; [|done]. intros [= <-]. simpl.
    apply truthy_iff in Ht. eauto using last_value_trimmed.
  - intros fk. rewrite parse_foreign_key_spec.
    destruct (truthy (last_value (u "Entity1=") lines)) eqn:H1; [|done].
    destruct (truthy (last_value (u "Entity2=") lines)) eqn:H2; [|done].
    destruct (truthy (last_value (u "Fields1=") lines)) eqn:H3; [|done].
    destruct (truthy (last_value (u "Fields2=") lines)) eqn:H4; [|done].
    intros [= <-]. simpl. apply truthy_iff in H1, H2, H3, H4.
    repeat constructor; eauto using last_value_trimmed.
Qed.

Example parse_sample_body `{UnicodeData} :
  A5erParser._parse_table sample_body
  = Some {| Table.physical_name := u "users";
            Table.logical_name := u "User"; Table.page := [];
            Table.columns :=
              [ {| Column.logical_name := u "ID";
                   Column.physical_name := u "id";
                   Column.data_type := u "INTEGER";
                   Column.not_null := true; Column.is_pk := true |} ];
            Table.indexes :=
              [ {| TableIndex.name := u "idx_name";
                   TableIndex.is_unique := false;
                   TableIndex.columns := [u "name"] |} ] |}.
Proof. by vm_compute. Qed.

(** ** Sections *)

Lemma parse_section_acc `{UnicodeData} acc sec :
  A5erParser.parse_section acc sec
  = (acc.1 ++ (section_records sec).1, acc.2 ++ (section_records sec).2).
Proof.
  unfold section_records, A5erParser.parse_section. destruct acc as [ts fks].
  repeat case_match; simpl; by rewrite ?app_nil_r.
Qed.

Lemma section_records_one `{UnicodeData} sec :
  (length (section_records sec).1 + length (section_records sec).2 <= 1)%nat.
Proof.
  unfold section_records, A5erParser.parse_section.
  repeat case_match; simpl; lia.
Qed.

Lemma parse_sections_fold `{UnicodeData} secs acc :
  fold_left A5erParser.parse_section secs acc
  = (acc.1 ++ (A5erParser.parse_sections secs).1,
     acc.2 ++ (A5erParser.parse_sections secs).2).
Proof.
  unfold A5erParser.parse_sections. revert acc.
  induction secs as [|sec secs IH]; intros acc.
  - destruct acc. simpl. by rewrite !app_nil_r.
  - cbn [fold_left]. rewrite (IH (A5erParser.parse_section acc sec)).
    rewrite (IH (A5erParser.parse_section _ sec)).
    rewrite (parse_section_acc acc), (parse_section_acc ([], [])).
    simpl. by rewrite !app_assoc.
Qed.

(** X3: sections are decoded one by one and never merged: the records of a
    list of sections are those of its first part followed by those of the
    rest, every section gives at most one record, and so there are never
    more records than sections. *)
Theorem parse_sections_independent `{UnicodeData} (secs1 secs2 : list str) :
  A5erParser.parse_sections (secs1 ++ secs2)
  = ((A5erParser.parse_sections secs1).1
       ++ (A5erParser.parse_sections secs2).1,
     (A5erParser.parse_sections secs1).2
       ++ (A5erParser.parse_sections secs2).2)
  /\ (length (A5erParser.parse_sections secs1).1
      + length (A5erParser.parse_sections secs1).2 <= length secs1)%nat.
Proof.
  split.
  - unfold A5erParser.parse_sections at 1. rewrite fold_left_app.
    by rewrite parse_sections_fold.
  - induction secs1 as [|sec secs IH]; [done|].
    unfold A5erParser.parse_sections. cbn [fold_left].
    rewrite parse_sections_fold, parse_section_acc. simpl.
    rewrite !length_app. pose proof (section_records_one sec).
    simpl. lia.
Qed.

(** X4: a section whose header is neither [Entity] nor [Relation] is
    skipped, whatever its body holds, and the document parses to what
    its other sections give. *)
Theorem unknown_header_skipped `{UnicodeData}
        content pre sec post header body :
  A5erParser._iter_sections (A5erParser.__init__ content)
  = pre ++ sec :: post ->
  SectionOf sec header body ->
  header <> u "[Entity]" -> header <> u "[Relation]" ->
  section_records sec = ([], [])
  /\ A5erParser.parse (A5erParser.__init__ content)
     = A5erParser.parse_sections (pre ++ post).
Proof.
  intros Hsecs (line0 & Hsplit & Hhead) He Hr.
  assert (Hrec : section_records sec = ([], [])).
  { unfold section_records, A5erParser.parse_section, str_eqb.
    rewrite Hsplit, Hhead.
    by rewrite !bool_decide_eq_false_2. }
  split; [done|]. unfold A5erParser.parse. rewrite Hsecs.
  apply parse_sections_skip. intros acc.
  rewrite parse_section_acc, Hrec. destruct acc. simpl.
  by rewrite !app_nil_r.
Qed.

Lemma unknown_header_skipped_witness :
  @A5erParser.parse ascii_only (A5erParser.__init__ document_with_comment)
  = ([users_only], []).
Proof.
  destruct (@unknown_header_skipped ascii_only document_with_comment
              [u "# exported"]
              (join [NL] [u "[Manager]"; u "PName=ghost"])
              [join [NL] [u "[Entity]"; u "PName=users"]]
              (u "[Manager]") [u "PName=ghost"]) as [_ Hparse].
  - reflexivity.
  - exists (u "[Manager]"). split; reflexivity.
  - discriminate.
  - discriminate.
  - rewrite Hparse. reflexivity.
Defined.

(** ** Cutting a document into sections *)

Lemma section_split_nonempty s : _SECTION_SPLIT_PATTERN_split s <> [].
Proof.
  destruct s as [|c s]; [done|]. simpl.
  destruct ((c =? NL) && _); [done|].
  by destruct (_SECTION_SPLIT_PATTERN_split s).
Qed.

Lemma join_cons_char sep c h t :
  join sep ((c :: h) :: t) = c :: join sep (h :: t).
Proof. by destruct t. Qed.

Lemma join_starts sep h t : exists r, join sep (h :: t) = h ++ r.
Proof. destruct t; [exists []; by rewrite app_nil_r|by eexists]. Qed.

Lemma startswith_app_l (p r q : list N) :
  p <> [] -> startswith (p ++ r) [hd 0 q] = startswith p [hd 0 q].
Proof.
  destruct p as [|c p]; [done|]. intros _. simpl. by destruct (_ =? _).
Qed.

Lemma section_split_join s : join [NL] (_SECTION_SPLIT_PATTERN_split s) = s.
Proof.
  induction s as [|c s IH]; [done|]. cbn [_SECTION_SPLIT_PATTERN_split].
  destruct ((c =? NL) && startswith s (u "[")) eqn:Hcut.
  - apply andb_true_iff in Hcut as [Hc _]. apply N.eqb_eq in Hc as ->.
    pose proof (section_split_nonempty s) as Hne.
    destruct (_SECTION_SPLIT_PATTERN_split s) as [|p ps]; [done|].
    change (join [NL] ([] :: p :: ps)) with (NL :: join [NL] (p :: ps)).
    by rewrite IH.
  - pose proof (section_split_nonempty s) as Hne.
    destruct (_SECTION_SPLIT_PATTERN_split s) as [|p ps]; [done|].
    by rewrite join_cons_char, IH.
Qed.

Lemma section_split_blocks s : section_blocks (_SECTION_SPLIT_PATTERN_split s).
Proof.
  unfold section_blocks. induction s as [|c s [IH1 IH2]].
  - split; by repeat constructor.
  - pose proof (section_split_join s) as Hj.
    pose proof (section_split_nonempty s) as Hne.
    cbn [_SECTION_SPLIT_PATTERN_split].
    destruct ((c =? NL) && startswith s (u "[")) eqn:Hcut.
    + apply andb_true_iff in Hcut as [_ Hs]. split; [by constructor|].
      destruct (_SECTION_SPLIT_PATTERN_split s) as [|p ps]; [done|].
      simpl. constructor; [|done].
      destruct (join_starts [NL] p ps) as [r Hr]. rewrite Hr in Hj.
      subst s. destruct p as [|d p]; [|done].
      destruct ps as [|q ps]; simpl in Hr; by subst r.
    + destruct (_SECTION_SPLIT_PATTERN_split s) as [|p ps]; [done|].
      apply Forall_cons in IH1 as [Hp Hps]. split; [|done].
      constructor; [|done]. cbn [contains]. rewrite Hp, orb_false_r.
      change (startswith (c :: p) (NL :: u "["))
        with ((NL =? c) && startswith p (u "[")).
      rewrite N.eqb_sym. destruct (c =? NL); [|done].
      simpl in Hcut |- *. destruct p as [|d p]; [done|].
      destruct (join_starts [NL] (d :: p) ps) as [r Hr].
      rewrite Hr in Hj. by subst s.
Qed.

(** X1: cutting loses nothing and is determined by the brackets: the blocks
    joined by newlines are the document again, no block holds a newline
    directly followed by an opening bracket, every block but the first
    starts with one, and there is always a first block. *)
Theorem section_split_round_trip (content : str) :
  join [NL] (_SECTION_SPLIT_PATTERN_split content) = content
  /\ section_blocks (_SECTION_SPLIT_PATTERN_split content)
  /\ _SECTION_SPLIT_PATTERN_split content <> [].
Proof.
  split; [apply section_split_join|].
  split; [apply section_split_blocks|apply section_split_nonempty].
Qed.

Lemma section_split_single p :
  contains p (NL :: u "[") = false -> _SECTION_SPLIT_PATTERN_split p = [p].
Proof.
  induction p as [|c p IH]; [done|]. cbn [contains].
  intros [Hc Hp]%orb_false_iff. cbn [_SECTION_SPLIT_PATTERN_split].
  change (startswith (c :: p) (NL :: u "["))
    with ((NL =? c) && startswith p (u "[")) in Hc.
  rewrite N.eqb_sym in Hc. by rewrite Hc, (IH Hp).
Qed.

Lemma section_split_block p q rest :
  contains p (NL :: u "[") = false -> startswith q (u "[") = true ->
  _SECTION_SPLIT_PATTERN_split (p ++ NL :: join [NL] (q :: rest))
  = p :: _SECTION_SPLIT_PATTERN_split (join [NL] (q :: rest)).
Proof.
  intros Hp Hq. destruct (join_starts [NL] q rest) as [r Hr].
  assert (HJ : startswith (join [NL] (q :: rest)) (u "[") = true).
  { rewrite Hr. destruct q as [|d q]; [done|]. exact Hq. }
  induction p as [|c p IH].
  - cbn [app _SECTION_SPLIT_PATTERN_split]. by rewrite N.eqb_refl, HJ.
  - cbn [contains] in Hp. apply orb_false_iff in Hp as [Hc Hp].
    change (startswith (c :: p) (NL :: u "["))
      with ((NL =? c) && startswith p (u "[")) in Hc.
    rewrite N.eqb_sym in Hc.
    change ((c :: p) ++ NL :: join [NL] (q :: rest))
      with (c :: (p ++ NL :: join [NL] (q :: rest))).
    cbn [_SECTION_SPLIT_PATTERN_split]. rewrite (IH Hp).
    assert (Hcut : (c =? NL)
                   && startswith (p ++ NL :: join [NL] (q :: rest)) (u "[")
                   = false).
    { destruct (c =? NL); [|done]. simpl in Hc |- *.
      destruct p as [|d p]; [done|exact Hc]. }
    by rewrite Hcut.
Qed.

Lemma section_split_of_blocks blocks :
  blocks <> [] -> section_blocks blocks ->
  _SECTION_SPLIT_PATTERN_split (join [NL] blocks) = blocks.
Proof.
  intros Hne [Hin Hhd]. induction blocks as [|p blocks IH]; [done|].
  apply Forall_cons in Hin as [Hp Hin]. destruct blocks as [|q rest].
  - by apply section_split_single.
  - cbn [tail] in Hhd. pose proof Hhd as [Hq Hrest]%Forall_cons.
    change (join [NL] (p :: q :: rest))
      with (p ++ NL :: join [NL] (q :: rest)).
    rewrite section_split_block by done. f_equal. by apply IH.
Qed.

(** X2: a document written as section blocks, one after the other on lines
    of their own, is cut into exactly these blocks, so it parses to the
    records of the blocks in order.  The document must not begin with a
    byte-order mark of its own beyond the one the constructor removes. *)
Theorem document_of_blocks `{UnicodeData} (blocks : list str) :
  blocks <> [] -> section_blocks blocks ->
  startswith (join [NL] blocks) [BOM] = false ->
  A5erParser._iter_sections (A5erParser.__init__ (join [NL] blocks)) = blocks
  /\ A5erParser.parse (A5erParser.__init__ (join [NL] blocks))
     = A5erParser.parse_sections blocks
  /\ A5erParser.parse (A5erParser.__init__ (BOM :: join [NL] blocks))
     = A5erParser.parse_sections blocks.
Proof.
  intros Hne Hblocks Hbom.
  unfold A5erParser.parse, A5erParser._iter_sections.
  rewrite init_marked, init_unmarked by done. cbn [A5erParser._content].
  by rewrite section_split_of_blocks.
Qed.

Lemma document_of_blocks_witness :
  @A5erParser.parse ascii_only (A5erParser.__init__ nameless_entity_document)
  = @A5erParser.parse_sections ascii_only
      [ join [NL] [u "[Entity]"; u "LName=Ghost"];
        join [NL] [u "[Entity]"; u "PName=users"] ].
Proof.
  apply (@document_of_blocks ascii_only
           [ join [NL] [u "[Entity]"; u "LName=Ghost"];
             join [NL] [u "[Entity]"; u "PName=users"] ]).
  - discriminate.
  - split; repeat constructor.
  - reflexivity.
Defined.

(** ** The mappings of the relation index *)

Section RelationIndexMappings.
Import RelationIndex.
Implicit Types (d : gmap (list N) (list ForeignKey.t)) (fk : ForeignKey.t).

Lemma lookup_setdefault_append_raw key fk d table_name :
  setdefault_append key fk d !! table_name
  = if decide (key = table_name)
    then Some (default [] (d !! table_name) ++ [fk])
    else d !! table_name.
Proof.
  unfold setdefault_append. destruct (decide (key = table_name)) as [->|Hne].
  - by rewrite lookup_insert_eq.
  - by rewrite lookup_insert_ne.
Qed.

Lemma fold_add_lookup fks self table_name :
  (_outgoing (fold_left add fks self) !! table_name
   = match with_child table_name fks with
     | [] => _outgoing self !! table_name
     | _ :: _ => Some (default [] (_outgoing self !! table_name)
                       ++ with_child table_name fks)
     end)
  /\ (_incoming (fold_left add fks self) !! table_name
      = match with_parent table_name fks with
        | [] => _incoming self !! table_name
        | _ :: _ => Some (default [] (_incoming self !! table_name)
                          ++ with_parent table_name fks)
        end).
Proof.
  revert self. induction fks as [|fk fks IH]; intros self; [done|].
  cbn [fold_left]. destruct (IH (add self fk)) as [-> ->].
  unfold add, with_child, with_parent. cbn [_outgoing _incoming].
  rewrite !lookup_setdefault_append_raw. split.
  - destruct (decide (ForeignKey.child_table fk = table_name)).
    + rewrite (filter_cons_True _ fk) by done. simpl.
      rewrite <- app_assoc. by destruct (filter _ fks).
    + by rewrite (filter_cons_False _ fk).
  - destruct (decide (ForeignKey.parent_table fk = table_name)).
    + rewrite (filter_cons_True _ fk) by done. simpl.
      rewrite <- app_assoc. by destruct (filter _ fks).
    + by rewrite (filter_cons_False _ fk).
Qed.

Lemma all_listed_setdefault_append key fk d :
  all_listed (setdefault_append key fk d) ≡ₚ fk :: all_listed d.
Proof.
  unfold setdefault_append, all_listed.
  destruct (d !! key) as [old|] eqn:Hkey; simpl.
  - rewrite <- insert_delete_eq.
    rewrite map_to_list_insert by by rewrite lookup_delete_eq.
    rewrite <- (map_to_list_delete d key old Hkey).
    rewrite !fmap_cons. simpl. rewrite <- app_assoc.
    symmetry. apply Permutation_middle.
  - rewrite map_to_list_insert by done. by rewrite fmap_cons.
Qed.

Lemma fold_add_all_listed fks self :
  all_listed (_outgoing (fold_left add fks self))
  ≡ₚ all_listed (_outgoing self) ++ fks
  /\ all_listed (_incoming (fold_left add fks self))
     ≡ₚ all_listed (_incoming self) ++ fks.
Proof.
  revert self. induction fks as [|fk fks IH]; intros self.
  - by rewrite !app_nil_r.
  - cbn [fold_left]. destruct (IH (add self fk)) as [-> ->].
    unfold add. cbn [_outgoing _incoming].
    rewrite !all_listed_setdefault_append.
    split; apply Permutation_middle.
Qed.

End RelationIndexMappings.

(** X11: the outgoing mapping has an entry exactly for the tables that are
    the child of some foreign key, the incoming one exactly for those
    that are a parent; an entry is never an empty list, and a lookup
    falls back to the empty list only for a table without entry. *)
Theorem relation_index_entries (fks : list ForeignKey.t) (table_name : str) :
  RelationIndex._outgoing (RelationIndex.__init__ fks) !! table_name
  = entry_of (with_child table_name fks)
  /\ RelationIndex._incoming (RelationIndex.__init__ fks) !! table_name
     = entry_of (with_parent table_name fks).
Proof.
  unfold RelationIndex.__init__.
  destruct (fold_add_lookup fks
    {| RelationIndex._outgoing := ∅; RelationIndex._incoming := ∅ |}
    table_name) as [-> ->].
  cbn [RelationIndex._outgoing RelationIndex._incoming].
  rewrite lookup_empty. split.
  - by destruct (with_child table_name fks).
  - by destruct (with_parent table_name fks).
Qed.

(** X12: each mapping stores every foreign key of the input exactly once:
    its lists, put one after the other, are a rearrangement of the
    input. *)
Theorem relation_index_stores_each_once (fks : list ForeignKey.t) :
  all_listed (RelationIndex._outgoing (RelationIndex.__init__ fks)) ≡ₚ fks
  /\ all_listed (RelationIndex._incoming (RelationIndex.__init__ fks)) ≡ₚ fks.
Proof.
  unfold RelationIndex.__init__.
  destruct (fold_add_all_listed fks
    {| RelationIndex._outgoing := ∅; RelationIndex._incoming := ∅ |})
    as [-> ->].
  cbn [RelationIndex._outgoing RelationIndex._incoming].
  unfold all_listed. by rewrite map_to_list_empty.
Qed.

(** X13: indexing is additive: the lookups for two batches of foreign keys
    taken together are those of the first batch followed by those of the
    second. *)
Theorem relation_index_app (fks1 fks2 : list ForeignKey.t) (table_name : str) :
  RelationIndex.get_outgoing (RelationIndex.__init__ (fks1 ++ fks2)) table_name
  = RelationIndex.get_outgoing (RelationIndex.__init__ fks1) table_name
    ++ RelationIndex.get_outgoing (RelationIndex.__init__ fks2) table_name
  /\ RelationIndex.get_incoming (RelationIndex.__init__ (fks1 ++ fks2))
                                table_name
     = RelationIndex.get_incoming (RelationIndex.__init__ fks1) table_name
       ++ RelationIndex.get_incoming (RelationIndex.__init__ fks2) table_name.
Proof.
  unfold RelationIndex.__init__.
  rewrite !fold_add_outgoing, !fold_add_incoming.
  unfold with_child, with_parent. by rewrite !filter_app.
Qed.

(** ** Pages *)

Lemma write_table_from_empty self buf table :
  MarkdownGenerator._write_table self buf table
  = buf ++ MarkdownGenerator._write_table self [] table.
Proof. by rewrite (write_table_spec self buf), (write_table_spec self []). Qed.

(** X14: the renderer only appends: what the buffer held stays in front, and
    what is written for a table does not depend on it. *)
Theorem write_table_appends (self : MarkdownGenerator.t) (buf : str)
        (table : Table.t) :
  MarkdownGenerator._write_table self buf table
  = buf ++ MarkdownGenerator._write_table self [] table.
Proof. apply write_table_from_empty. Qed.

(** X15: a table without columns, indexes and relations still gets its header,
    the head of the column table and the separator, and nothing else. *)
Theorem write_table_bare (self : MarkdownGenerator.t) (table : Table.t) :
  Table.columns table = [] -> Table.indexes table = [] ->
  RelationIndex.get_outgoing (MarkdownGenerator._relation_index self)
                             (Table.physical_name table) = [] ->
  RelationIndex.get_incoming (MarkdownGenerator._relation_index self)
                             (Table.physical_name table) = [] ->
  MarkdownGenerator._write_table self [] table
  = join [NL]
      [ u "### " ++ Table.physical_name table ++ u " ("
        ++ Table.logical_name table ++ u ")"; [];
        u "#### カラム"; [];
        u "| 物理名 | 論理名 | 型 | NOT NULL | PK |";
        u "|--------|--------|-----|:--------:|:--:|"; [];
        u "---"; []; [] ].
Proof.
  intros Hc Hi Ho Hin. rewrite write_table_spec, Ho, Hin.
  unfold table_head. rewrite Hc, Hi. cbn [map concat block join app].
  by repeat (rewrite <- app_assoc || rewrite <- app_comm_cons).
Qed.

Lemma write_table_bare_witness :
  MarkdownGenerator._write_table
    (MarkdownGenerator.__init__ [users_only] (RelationIndex.__init__ []))
    [] users_only
  = join [NL]
      [ u "### users ()"; []; u "#### カラム"; [];
        u "| 物理名 | 論理名 | 型 | NOT NULL | PK |";
        u "|--------|--------|-----|:--------:|:--:|"; [];
        u "---"; []; [] ].
Proof.
  apply (write_table_bare
           (MarkdownGenerator.__init__ [users_only] (RelationIndex.__init__ []))
           users_only); reflexivity.
Defined.

(** X16: a page is its head (title, number of tables, one entry of the table
    of contents per table) followed by the renderings of its tables, one
    after the other in the order given. *)
Theorem generate_page_sections `{UnicodeLower} (self : MarkdownGenerator.t)
        (page_name : str) (tables : list Table.t) :
  MarkdownGenerator.generate_page self page_name tables
  = page_head page_name tables
    ++ concat (map (MarkdownGenerator._write_table self []) tables).
Proof.
  unfold MarkdownGenerator.generate_page, page_head. cbn zeta.
  rewrite (fold_write (MarkdownGenerator._write_table self)
             (MarkdownGenerator._write_table self []))
    by (intros; apply write_table_from_empty).
  rewrite (fold_write MarkdownGenerator.write_toc toc_entry)
    by (intros; unfold MarkdownGenerator.write_toc, MarkdownGenerator.write,
          toc_entry; done).
  unfold MarkdownGenerator.write. cbn [app].
  by repeat (rewrite <- app_assoc || rewrite <- app_comm_cons).
Qed.

(** ** The order of strings *)

Lemma str_ltb_irrefl a : str_ltb a a = false.
Proof.
  induction a as [|x a IH]; [done|]. simpl.
  by rewrite N.ltb_irrefl, N.eqb_refl, IH.
Qed.

Lemma str_ltb_cases a b : str_ltb a b = true \/ a = b \/ str_ltb b a = true.
Proof.
  revert b. induction a as [|x a IH]; intros [|y b]; simpl; auto.
  destruct (N.lt_trichotomy x y) as [Hlt | [-> | Hgt]].
  - left. apply N.ltb_lt in Hlt. by rewrite Hlt.
  - rewrite N.ltb_irrefl, N.eqb_refl. simpl.
    destruct (IH b) as [? | [-> | ?]]; auto.
  - right. right. apply N.ltb_lt in Hgt. by rewrite Hgt.
Qed.

Lemma str_ltb_trans a b c :
  str_ltb a b = true -> str_ltb b c = true -> str_ltb a c = true.
Proof.
  revert b c. induction a as [|x a IH]; intros [|y b] [|z c]; simpl; try done.
  intros Hab Hbc.
  apply orb_true_iff in Hab as [Hxy | [Hxy Hab]%andb_true_iff];
    apply orb_true_iff in Hbc as [Hyz | [Hyz Hbc]%andb_true_iff];
    rewrite ?N.ltb_lt, ?N.eqb_eq in *; apply orb_true_iff.
  - left. apply N.ltb_lt. lia.
  - left. apply N.ltb_lt. lia.
  - left. apply N.ltb_lt. lia.
  - right. subst. rewrite N.eqb_refl. simpl. by eapply IH.
Qed.

Lemma str_ltb_asym a b : str_ltb a b = true -> str_ltb b a = false.
Proof.
  intros Hab. destruct (str_ltb b a) eqn:Hba; [|done].
  by rewrite <- (str_ltb_irrefl a), <- (str_ltb_trans _ _ _ Hab Hba).
Qed.

Lemma name_le_trans a b c : name_le a b -> name_le b c -> name_le a c.
Proof.
  unfold name_le. intros Hab Hbc.
  destruct (str_ltb (Table.physical_name c) (Table.physical_name a)) eqn:Hca;
    [|done].
  destruct (str_ltb_cases (Table.physical_name a) (Table.physical_name b))
    as [Hlt | [Heq | Hgt]].
  - by rewrite (str_ltb_trans _ _ _ Hca Hlt) in Hbc.
  - by rewrite <- Heq, Hca in Hbc.
  - by rewrite Hgt in Hab.
Qed.

Lemma name_le_antisym a b :
  name_le a b -> name_le b a -> Table.physical_name a = Table.physical_name b.
Proof.
  unfold name_le. intros Hab Hba.
  destruct (str_ltb_cases (Table.physical_name a) (Table.physical_name b))
    as [Hlt | [Heq | Hgt]]; congruence.
Qed.

(** ** Sorting the tables of a page *)

Lemma insert_perm table sorted : main.insert table sorted ≡ₚ table :: sorted.
Proof.
  induction sorted as [|x rest IH]; [done|]. simpl.
  destruct (str_ltb _ _); [|done]. rewrite IH. apply Permutation_swap.
Qed.

Lemma sort_perm tables : main.sort tables ≡ₚ tables.
Proof.
  induction tables as [|table rest IH]; [done|]. simpl.
  by rewrite insert_perm, IH.
Qed.

Lemma insert_sorted table sorted :
  name_sorted sorted -> name_sorted (main.insert table sorted).
Proof.
  unfold name_sorted. induction 1 as [|x rest Hrest IH Hx]; simpl.
  - by repeat constructor.
  - destruct (str_ltb (Table.physical_name x) (Table.physical_name table))
      eqn:Hlt.
    + constructor; [done|]. rewrite insert_perm. constructor; [|done].
      by apply str_ltb_asym.
    + constructor; [by constructor|]. constructor; [done|].
      eapply Forall_impl; [exact Hx|]. intros y Hy.
      by apply (name_le_trans _ x).
Qed.

Lemma sort_sorted tables : name_sorted (main.sort tables).
Proof.
  induction tables as [|table rest IH]; [constructor|].
  by apply insert_sorted.
Qed.

Lemma insert_named table_name table sorted :
  named table_name (main.insert table sorted)
  = named table_name (table :: sorted).
Proof.
  unfold named. induction sorted as [|x rest IH]; [done|]. simpl.
  destruct (str_ltb (Table.physical_name x) (Table.physical_name table))
    eqn:Hlt; [|done].
  destruct (decide (Table.physical_name x = table_name)) as [Hx|Hx].
  - rewrite (filter_cons_True _ x) by done. rewrite IH.
    rewrite (filter_cons_False _ table).
    2:{ intros Ht. by rewrite Hx, Ht, str_ltb_irrefl in Hlt. }
    rewrite (filter_cons_False _ table).
    2:{ intros Ht. by rewrite Hx, Ht, str_ltb_irrefl in Hlt. }
    by rewrite (filter_cons_True _ x).
  - rewrite (filter_cons_False _ x) by done. rewrite IH.
    destruct (decide (Table.physical_name table = table_name)).
    + rewrite !(filter_cons_True _ table) by done.
      by rewrite (filter_cons_False _ x).
    + rewrite !(filter_cons_False _ table) by done.
      by rewrite (filter_cons_False _ x).
Qed.

Lemma sort_named table_name tables :
  named table_name (main.sort tables) = named table_name tables.
Proof.
  induction tables as [|table rest IH]; [done|]. simpl.
  rewrite insert_named. unfold named in *.
  destruct (decide (Table.physical_name table = table_name)).
  - rewrite !(filter_cons_True _ table) by done. by rewrite IH.
  - rewrite !(filter_cons_False _ table) by done. by rewrite IH.
Qed.

(** Two lists in ascending order of names that hold, for every name, the
    same tables in the same order are the same list. *)
Lemma name_sorted_unique l1 l2 :
  name_sorted l1 -> name_sorted l2 ->
  (forall table_name, named table_name l1 = named table_name l2) ->
  l1 = l2.
Proof.
  unfold name_sorted, named. intros H1. revert l2.
  induction H1 as [|x l1 Hl1 IH Hx]; intros l2 H2 Hsame.
  - destruct l2 as [|y l2]; [done|].
    specialize (Hsame (Table.physical_name y)).
    by rewrite (filter_cons_True _ y) in Hsame.
  - destruct H2 as [|y l2 Hl2 Hy].
    { specialize (Hsame (Table.physical_name x)).
      by rewrite (filter_cons_True _ x) in Hsame. }
    assert (Hname : Table.physical_name x = Table.physical_name y).
    { apply name_le_antisym.
      - assert (Hin : y ∈ x :: l1).
        { pose proof (Hsame (Table.physical_name y)) as E.
          rewrite (filter_cons_True _ y) in E by done.
          assert (Hy' : y ∈ filter (fun tb => Table.physical_name tb
                                              = Table.physical_name y)
                                   (x :: l1)) by (rewrite E; left).
          by apply list_elem_of_filter in Hy' as [_ ?]. }
        apply elem_of_cons in Hin as [->|Hin].
        + unfold name_le. apply str_ltb_irrefl.
        + by eapply Forall_forall in Hx.
      - assert (Hin : x ∈ y :: l2).
        { pose proof (Hsame (Table.physical_name x)) as E.
          rewrite (filter_cons_True _ x) in E by done.
          assert (Hx' : x ∈ filter (fun tb => Table.physical_name tb
                                              = Table.physical_name x)
                                   (y :: l2)) by (rewrite <- E; left).
          by apply list_elem_of_filter in Hx' as [_ ?]. }
        apply elem_of_cons in Hin as [->|Hin].
        + unfold name_le. apply str_ltb_irrefl.
        + by eapply Forall_forall in Hy. }
    pose proof (Hsame (Table.physical_name x)) as E.
    rewrite (filter_cons_True _ x) in E by done.
    rewrite (filter_cons_True _ y) in E by done.
    injection E as -> E. f_equal. apply IH; [done|].
    intros table_name. specialize (Hsame table_name).
    destruct (decide (Table.physical_name y = table_name)).
    + rewrite !(filter_cons_True _ y) in Hsame by done. by injection Hsame.
    + by rewrite !(filter_cons_False _ y) in Hsame.
Qed.

(** X18: sorting a page puts its tables in ascending order of physical name
    (code point by code point), keeps exactly the tables it was given,
    and keeps tables of the same name in the order they had; the result
    is the only list with these properties, whatever the algorithm. *)
Theorem sort_by_physical_name (tables : list Table.t) :
  name_sorted (main.sort tables)
  /\ main.sort tables ≡ₚ tables
  /\ (forall table_name,
        named table_name (main.sort tables) = named table_name tables)
  /\ (forall sorted,
        name_sorted sorted ->
        (forall table_name,
            named table_name sorted = named table_name tables) ->
        sorted = main.sort tables).
Proof.
  split; [apply sort_sorted|]. split; [apply sort_perm|].
  split; [intros; apply sort_named|].
  intros sorted Hsorted Hsame. apply name_sorted_unique; [done| |].
  - apply sort_sorted.
  - intros table_name. by rewrite sort_named.
Qed.

(** ** Grouping the tables by page *)

Lemma first_occurrences_elem x l : x ∈ first_occurrences l <-> x ∈ l.
Proof.
  induction l as [|y l IH]; [done|]. simpl.
  rewrite !elem_of_cons, list_elem_of_filter, IH.
  destruct (decide (x = y)) as [->|Hne]; [by split; left|].
  split; [intros [?|[_ ?]]; auto|intros [?|?]; auto].
Qed.

Lemma first_occurrences_NoDup l : NoDup (first_occurrences l).
Proof.
  induction l as [|y l IH]; [constructor|]. simpl. constructor.
  - rewrite list_elem_of_filter. by intros [? _].
  - by apply NoDup_filter.
Qed.

Lemma first_occurrences_snoc l x :
  first_occurrences (l ++ [x])
  = first_occurrences l ++ (if decide (x ∈ l) then [] else [x]).
Proof.
  induction l as [|y l IH].
  - simpl. destruct (decide (x ∈ [])) as [Hin|_]; [|done].
    by apply elem_of_nil in Hin.
  - cbn [app first_occurrences]. rewrite IH, filter_app. f_equal. f_equal.
    destruct (decide (x ∈ l)) as [Hin|Hin];
      destruct (decide (x ∈ y :: l)) as [Hin'|Hin']; try done.
    + exfalso. apply Hin'. by right.
    + apply elem_of_cons in Hin' as [->|?]; [|done].
      by rewrite filter_cons_False by auto.
    + apply not_elem_of_cons in Hin' as [Hne _].
      by rewrite filter_cons_True.
Qed.

Section Grouping.
Implicit Types (pages : list (list N * list Table.t)) (key : list N).

Lemma setdefault_append_new pages key table :
  key ∉ pages.*1 ->
  main.setdefault_append pages key table = pages ++ [(key, [table])].
Proof.
  induction pages as [|[k l] pages IH]; [done|]. simpl.
  rewrite not_elem_of_cons. intros [Hne Hnin].
  rewrite bool_decide_eq_false_2 by done. by rewrite IH.
Qed.

Lemma setdefault_append_old pages key table :
  key ∈ pages.*1 -> NoDup pages.*1 ->
  main.setdefault_append pages key table
  = map (fun kv => (kv.1, kv.2 ++ (if decide (kv.1 = key) then [table]
                                  else []))) pages.
Proof.
  induction pages as [|[k l] pages IH]; [by intros ?%elem_of_nil|].
  simpl. intros Hin Hnd. apply NoDup_cons in Hnd as [Hk Hnd].
  destruct (decide (k = key)) as [->|Hne].
  - rewrite bool_decide_eq_true_2 by done. f_equal.
    clear IH Hin. induction pages as [|[k' l'] pages IH]; [done|].
    simpl in *. apply not_elem_of_cons in Hk as [Hne Hk].
    apply NoDup_cons in Hnd as [_ Hnd].
    rewrite decide_False by done. rewrite app_nil_r. f_equal. by apply IH.
  - rewrite bool_decide_eq_false_2 by done. rewrite app_nil_r. f_equal.
    apply IH; [|done]. apply elem_of_cons in Hin as [?|?]; [congruence|done].
Qed.

Lemma setdefault_append_concat pages key table :
  concat (main.setdefault_append pages key table).*2
  ≡ₚ table :: concat pages.*2.
Proof.
  induction pages as [|[k l] pages IH]; [done|]. simpl.
  destruct (bool_decide (k = key)); simpl.
  - rewrite <- app_assoc. symmetry. apply Permutation_middle.
  - rewrite IH. symmetry. apply Permutation_middle.
Qed.

End Grouping.

Lemma pages_grouped tables :
  main.pages tables
  = map (fun page_name => (page_name, on_page page_name tables))
        (first_occurrences (map Table.page tables)).
Proof.
  unfold main.pages, on_page.
  induction tables as [|table tables IH] using rev_ind; [done|].
  rewrite fold_left_app. cbn [fold_left]. rewrite IH.
  rewrite map_app. cbn [map]. rewrite first_occurrences_snoc.
  set (ks := first_occurrences (map Table.page tables)).
  assert (Hfst : (map (fun page_name : list N =>
                    (page_name,
                     filter (fun tb => Table.page tb = page_name) tables))
                    ks).*1 = ks).
  { rewrite <- list_fmap_compose. clear. induction ks; [done|].
    simpl. by f_equal. }
  destruct (decide (Table.page table ∈ map Table.page tables)) as [Hin|Hnin].
  - rewrite app_nil_r, setdefault_append_old.
    + rewrite map_map. apply map_ext. intros k. simpl.
      rewrite filter_app. f_equal.
      destruct (decide (k = Table.page table)) as [->|Hne].
      * by rewrite filter_cons_True.
      * by rewrite filter_cons_False by congruence.
    + rewrite Hfst. by apply first_occurrences_elem.
    + rewrite Hfst. apply first_occurrences_NoDup.
  - rewrite setdefault_append_new
      by (rewrite Hfst; unfold ks; by rewrite first_occurrences_elem).
    rewrite map_app. cbn [map]. f_equal.
    + apply map_ext_in. intros k Hk. f_equal. rewrite filter_app.
      rewrite filter_cons_False, filter_nil, app_nil_r; [done|].
      intros Heq. apply Hnin. rewrite Heq. unfold ks in Hk.
      apply list_elem_of_In in Hk.
      by apply (proj1 (first_occurrences_elem _ _)) in Hk.
    + do 2 f_equal. rewrite filter_app, filter_cons_True by done.
      rewrite filter_nil, (filter_none _ tables); [done|].
      apply Forall_forall. intros tb Htb Heq. apply Hnin.
      rewrite <- Heq. apply list_elem_of_In, in_map.
      by apply list_elem_of_In.
Qed.

Lemma pages_concat tables : concat (main.pages tables).*2 ≡ₚ tables.
Proof.
  unfold main.pages.
  induction tables as [|table tables IH] using rev_ind; [done|].
  rewrite fold_left_app. cbn [fold_left].
  rewrite setdefault_append_concat, IH. apply Permutation_cons_append.
Qed.

Lemma sorted_concat (pages : list (list N * list Table.t)) :
  concat (map (fun kv => (kv.1, main.sort kv.2)) pages).*2
  ≡ₚ concat pages.*2.
Proof.
  induction pages as [|[k l] pages IH]; [done|]. simpl.
  by rewrite sort_perm, IH.
Qed.

Lemma sorted_pages_grouped tables :
  main.sorted_pages tables
  = map (fun page_name => (page_name, main.sort (on_page page_name tables)))
        (first_occurrences (map Table.page tables)).
Proof. unfold main.sorted_pages. by rewrite pages_grouped, map_map. Qed.

(** X17: the tables are grouped by page, the pages in the order in which they
    first occur; every page has the tables that name it, sorted by
    physical name, so no page is empty and every table is on exactly one
    page: the pages together are a rearrangement of the tables. *)
Theorem tables_grouped_by_page (tables : list Table.t) :
  main.sorted_pages tables
  = map (fun page_name => (page_name, main.sort (on_page page_name tables)))
        (first_occurrences (map Table.page tables))
  /\ NoDup (main.sorted_pages tables).*1
  /\ Forall (fun kv => kv.2 <> []) (main.sorted_pages tables)
  /\ concat (main.sorted_pages tables).*2 ≡ₚ tables.
Proof.
  pose proof (sorted_pages_grouped tables) as Heq.
  split; [done|]. split; [|split].
  - rewrite Heq. 
    replace ((map (fun page_name : list N =>
                (page_name, main.sort (on_page page_name tables)))
                (first_occurrences (map Table.page tables))).*1)
      with (first_occurrences (map Table.page tables)).
    + apply first_occurrences_NoDup.
    + generalize (first_occurrences (map Table.page tables)).
      intros ks. induction ks; [done|]. simpl. by f_equal.
  - rewrite Heq. apply Forall_forall. intros [k l] Hin.
    apply list_elem_of_In, in_map_iff in Hin as (k' & [= <- <-] & Hk).
    apply list_elem_of_In in Hk.
    apply (proj1 (first_occurrences_elem _ _)) in Hk.
    apply list_elem_of_In, in_map_iff in Hk as (tb & Hpage & Htb).
    simpl. intros Hnil.
    assert (Hmem : tb ∈ main.sort (on_page k' tables)).
    { rewrite sort_perm. unfold on_page. apply list_elem_of_filter.
      split; [done|by apply list_elem_of_In]. }
    rewrite Hnil in Hmem. by apply elem_of_nil in Hmem.
  - unfold main.sorted_pages. rewrite sorted_concat. apply pages_concat.
Qed.

(** ** Output files *)

Lemma safe_char (c : N) :
  let c' := if (if c =? 0x20 then 0x5F else c) =? 0x2F then 0x5F
            else (if c =? 0x20 then 0x5F else c) in
  (blank_like c /\ c' = 0x5F) \/ (~ blank_like c /\ c' = c).
Proof.
  unfold blank_like. cbn zeta.
  destruct (c =? 0x20) eqn:H1; [apply N.eqb_eq in H1; subst; left; auto|].
  destruct (c =? 0x2F) eqn:H2; [apply N.eqb_eq in H2; subst; left; auto|].
  apply N.eqb_neq in H1, H2.
  destruct (decide (c = 0x5F)) as [->|H3]; [left; auto|].
  right. split; [|done]. intros [?|[?|?]]; done.
Qed.

Lemma safe_filename_map s :
  main.safe_filename s
  = map (fun c => if (if c =? 0x20 then 0x5F else c) =? 0x2F then 0x5F
                  else (if c =? 0x20 then 0x5F else c)) s.
Proof. unfold main.safe_filename, replace. by rewrite map_map. Qed.

Lemma safe_filename_eq s s' :
  main.safe_filename s = main.safe_filename s'
  <-> Forall2 (fun c c' => c = c' \/ (blank_like c /\ blank_like c')) s s'.
Proof.
  rewrite !safe_filename_map. revert s'.
  induction s as [|c s IH]; intros [|c' s']; simpl; split; try done.
  - by inversion 1.
  - by inversion 1.
  - intros [= Hc Hs]. constructor; [|by apply IH].
    destruct (safe_char c) as [[Hb Hx]|[Hb Hx]],
      (safe_char c') as [[Hb' Hx']|[Hb' Hx']];
      cbn zeta in *; rewrite Hx, Hx' in Hc; subst; auto.
    + exfalso. apply Hb'. unfold blank_like. auto.
    + exfalso. apply Hb. unfold blank_like. auto.
  - inversion 1 as [|? ? ? ? Hc Hs]; subst. f_equal; [|by apply IH].
    destruct Hc as [->|[Hb Hb']]; [done|].
    destruct (safe_char c) as [[_ Hx]|[? _]]; [|done].
    destruct (safe_char c') as [[_ Hx']|[? _]]; [|done].
    cbn zeta in *. by rewrite Hx, Hx'.
Qed.

(** X19: the name of a page's file keeps the length of the page name, holds
    no space and no slash from it, and two pages get the same file name
    (for the same timestamp) exactly when their names agree up to
    exchanging spaces, slashes and underscores. *)
Theorem output_name_collisions (page_name : str) :
  length (main.safe_filename page_name) = length page_name
  /\ Forall (fun c => c <> 0x20 /\ c <> 0x2F) (main.safe_filename page_name)
  /\ (forall other timestamp,
        main.output_name page_name timestamp
        = main.output_name other timestamp
        <-> Forall2 (fun c c' => c = c' \/ (blank_like c /\ blank_like c'))
                    page_name other).
Proof.
  split; [|split].
  - unfold main.safe_filename, replace. by rewrite !length_map.
  - rewrite safe_filename_map. apply Forall_forall. intros x Hx.
    apply list_elem_of_In, in_map_iff in Hx as (c & <- & _).
    destruct (safe_char c) as [[_ Hc]|[Hb Hc]]; cbn zeta in *; rewrite Hc.
    + done.
    + unfold blank_like in Hb. split; intros ->; apply Hb; auto.
  - intros other timestamp. rewrite <- safe_filename_eq.
    unfold main.output_name. split; [|by intros ->].
    apply app_inv_tail.
Qed.

Example two_pages_named `{UnicodeData} :
  map (fun kv => main.output_name kv.1 (u "20240101_093000"))
      (main.sorted_pages
         (A5erParser.parse (A5erParser.__init__ two_page_document)).1)
  = [ u "Sales_2024_20240101_093000.md"; u "Core_Main_20240101_093000.md" ]
  /\ main.sorted_pages
       (A5erParser.parse (A5erParser.__init__ two_page_document)).1
     = [ (u "Sales 2024",
          [ {| Table.physical_name := u "items"; Table.logical_name := [];
               Table.page := u "Sales 2024"; Table.columns := [];
               Table.indexes := [] |};
            {| Table.physical_name := u "orders"; Table.logical_name := [];
               Table.page := u "Sales 2024"; Table.columns := [];
               Table.indexes := [] |} ]);
         (u "Core/Main",
          [ {| Table.physical_name := u "users"; Table.logical_name := [];
               Table.page := u "Core/Main"; Table.columns := [];
               Table.indexes := [] |} ]) ].
Proof. split; by vm_compute. Qed.

(** ** Unambiguous lines *)

(** X9: a Field line is read in one way only: its four segments are
    determined, and so is its trailing token up to leading whitespace. *)
Theorem field_line_unambiguous line a b c d tok a' b' c' d' tok' :
  FieldLine line a b c d tok -> FieldLine line a' b' c' d' tok' ->
  a = a' /\ b = b' /\ c = c' /\ d = d' /\ lstrip tok = lstrip tok'.
Proof.
  intros (w1 & w2 & w3 & w4 & rest & -> & Ha & Hb & Hc & Hd
          & H1 & H2 & H3 & H4 & Htok & Hrest).
  intros (v1 & v2 & v3 & v4 & rest' & Hline & Ha' & Hb' & Hc' & Hd'
          & H1' & H2' & H3' & H4' & Htok' & Hrest').
  pose proof (field_match a w1 b w2 c w3 d w4 tok rest
                Ha Hb Hc Hd H1 H2 H3 H4 Htok Hrest) as Hm.
  rewrite Hline in Hm.
  rewrite (field_match a' v1 b' v2 c' v3 d' v4 tok' rest') in Hm by done.
  by injection Hm as <- <- <- <- <-.
Qed.

Lemma field_line_unambiguous_witness : lstrip (u " 0") = lstrip (u "0").
Proof.
  refine (proj2 (proj2 (proj2 (proj2
    (field_line_unambiguous spaced_field
       (u "ID") (u "id") (u "INTEGER") (u "NOT NULL") (u " 0")
       (u "ID") (u "id") (u "INTEGER") (u "NOT NULL") (u "0") _ _))))).
  - exists [], [], [], [], []. split; [reflexivity|].
    repeat split; by repeat constructor.
  - exists [], [], [], (u " "), []. split; [reflexivity|].
    repeat split; by repeat constructor.
Defined.

Example str_of_nat_digits :
  str_of_nat 0 = u "0" /\ str_of_nat 7 = u "7" /\ str_of_nat 120 = u "120".
Proof. by vm_compute. Qed.

Example lower_ascii_name `{UnicodeLower} : lower (u "Users_V2") = u "users_v2".
Proof. by vm_compute. Qed.

Example str_ltb_order :
  str_ltb (u "Zeta") (u "alpha") = true
  /\ str_ltb (u "item") (u "items") = true
  /\ str_ltb (u "items") (u "item") = false.
Proof. by vm_compute. Qed.

Lemma sample_index_one_line : without NL sample_index.
Proof.
  apply Forall_forall. intros c Hc. apply list_elem_of_In in Hc.
  vm_compute in Hc. unfold not_char.
  repeat (destruct Hc as [<-|Hc]; [reflexivity|]). destruct Hc.
Qed.

Lemma parse_index_accepts_witness :
  exists nm flag pieces, @IndexLine ascii_only sample_index nm flag pieces.
Proof.
  destruct (@parse_index_accepts ascii_only sample_index
              sample_index_one_line) as [Haccepted _].
  apply Haccepted.
  exists {| TableIndex.name := u "idx_name"; TableIndex.is_unique := false;
            TableIndex.columns := [u "name"] |}.
  vm_compute. reflexivity.
Defined.

(** The strings of a column are the groups of the Field pattern as they
    stand, blanks included; only the trailing token is trimmed. *)
Example column_strings_verbatim `{UnicodeData} :
  A5erParser._parse_column
    (field_text (u "a ") [] (u " b") [] (u "c") [] [] [] (u " 0 ") [])
  = Some {| Column.logical_name := u "a "; Column.physical_name := u " b";
            Column.data_type := u "c"; Column.not_null := false;
            Column.is_pk := true |}.
Proof. by vm_compute. Qed.
